(** * LearnAI-ADPM: the anomaly-detection cells of the introduction notebook

    The notebook [01_AD_introduction] computes, on a numpy [float64] array
    [y], the global mean and standard deviation, a one-sided threshold
    [m + tolerance * std], the indices above it, and an array [anoms] that is
    NaN everywhere except at those indices.  The data-preparation notebook
    computes exponentially weighted statistics with pandas [ewm].

    Arrays are numpy objects held by reference, so they live in a heap of
    arrays; scalars are [float64] values.  The arithmetic is an interface
    ([FloatArith]) instantiated with IEEE-754 binary64 as specified by the
    Standard Library's [SpecFloat]. *)

From Stdlib Require Import ZArith Lia Bool SpecFloat.
From stdpp Require Import base option list.

Set Default Proof Using "Type*".

(** ** Floating-point interface *)

(** The operations of [float64] that the cells use.  [feqb], [fltb] and [fleb]
    are the IEEE comparisons [==], [<] and [<=]: all are false on a NaN.
    [fisinf] is [np.isinf].  [fvalid] tells the well-formed representations
    from the others. *)
Class FloatArith (F : Type) := {
  nan : F;
  zero : F;
  one : F;
  of_nat : nat -> F;
  fadd : F -> F -> F;
  fsub : F -> F -> F;
  fmul : F -> F -> F;
  fdiv : F -> F -> F;
  fsqrt : F -> F;
  feqb : F -> F -> bool;
  fltb : F -> F -> bool;
  fleb : F -> F -> bool;
  fisinf : F -> bool;
  fvalid : F -> bool
}.

Section FloatDefs.
Context {F : Type} `{FloatArith F}.

(** Python's [x != x]: the test that singles out NaN. *)
Definition is_nan (x : F) : Prop := feqb x x = false.

(** [x > t] is [t < x]. *)
Definition fgtb (x t : F) : bool := fltb t x.
End FloatDefs.

(** What the proofs below use of IEEE-754 arithmetic: NaN is absorbing for
    the operations and fails every comparison, [<] is asymmetric and
    compatible with [<=], and a square root is never negative. *)
Class FloatLaws (F : Type) `{FloatArith F} : Prop := {
  nan_is_nan : is_nan nan;
  fadd_nan_l : forall x y, is_nan x -> is_nan (fadd x y);
  fadd_nan_r : forall x y, is_nan y -> is_nan (fadd x y);
  fsub_nan_l : forall x y, is_nan x -> is_nan (fsub x y);
  fsub_nan_r : forall x y, is_nan y -> is_nan (fsub x y);
  fmul_nan_l : forall x y, is_nan x -> is_nan (fmul x y);
  fmul_nan_r : forall x y, is_nan y -> is_nan (fmul x y);
  fdiv_nan_l : forall x y, is_nan x -> is_nan (fdiv x y);
  fsqrt_nan : forall x, is_nan x -> is_nan (fsqrt x);
  fltb_nan_l : forall x y, is_nan x -> fltb x y = false;
  fltb_nan_r : forall x y, is_nan y -> fltb x y = false;
  fltb_asym : forall x y, fltb x y = true -> fltb y x = false;
  fleb_fltb_trans : forall x y z, fleb x y = true -> fltb y z = true -> fltb x z = true;
  fsqrt_sign : forall x, is_nan (fsqrt x) \/ fleb zero (fsqrt x) = true
}.

(** Rounding is monotone on well-formed numbers: a larger positive factor of
    a non-negative number gives a product that is not smaller, and adding a
    larger non-negative term gives a sum that is not smaller, unless the
    larger result is NaN (infinity times zero, or infinities of opposite
    sign).  Quotients and square roots are well formed. *)
Class MonotoneRounding (F : Type) `{FloatArith F} : Prop := {
  fdiv_valid : forall x y, fvalid (fdiv x y) = true;
  fsqrt_valid : forall x, fvalid (fsqrt x) = true;
  fmul_mono : forall t1 t2 s,
    fvalid t1 = true -> fvalid t2 = true -> fvalid s = true ->
    fltb zero t1 = true -> fltb t1 t2 = true -> fleb zero s = true ->
    fleb zero (fmul t1 s) = true /\ fvalid (fmul t1 s) = true /\
    (is_nan (fmul t2 s) \/
     (fvalid (fmul t2 s) = true /\ fleb (fmul t1 s) (fmul t2 s) = true));
  fadd_mono : forall c a b,
    fvalid c = true -> fvalid a = true -> fvalid b = true ->
    fleb zero a = true -> fleb a b = true ->
    is_nan (fadd c b) \/ fleb (fadd c a) (fadd c b) = true
}.

(** ** IEEE-754 binary64 *)

Module Binary64.
Local Open Scope Z_scope.

Definition prec : Z := 53.
Definition emax : Z := 1024.

Definition float64 : Type := spec_float.

(** Conversion of a Python [int] to [float64]. *)
Definition of_Z (z : Z) : float64 := binary_normalize prec emax z 0 false.

#[global] Instance binary64_arith : FloatArith float64 := {|
  nan := S754_nan;
  zero := S754_zero false;
  one := of_Z 1;
  of_nat n := of_Z (Z.of_nat n);
  fadd := SFadd prec emax;
  fsub := SFsub prec emax;
  fmul := SFmul prec emax;
  fdiv := SFdiv prec emax;
  fsqrt := SFsqrt prec emax;
  feqb := SFeqb;
  fltb := SFltb;
  fleb := SFleb;
  fisinf x := match x with S754_infinity _ => true | _ => false end;
  fvalid := valid_binary prec emax
|}.

(** *** Values and rounding, for the proofs about the order *)

(** The exponent of the format for a number of magnitude [2^e]. *)
Abbreviation fexp64 := (fexp prec emax).

(** The quotient [M / 2^n] rounded to nearest, ties to even. *)
Definition rne (M n : Z) : Z :=
  let q := M / 2 ^ n in
  let r := M mod 2 ^ n in
  if (2 ^ n <? 2 * r) || ((2 * r =? 2 ^ n) && Z.odd q) then q + 1 else q.

(** The shift record of [M] after [n >= 1] shifts to the right. *)
Definition shr_spec (M n : Z) : shr_record :=
  {| shr_m := M / 2 ^ n;
     shr_r := Z.odd (M / 2 ^ (n - 1));
     shr_s := negb (M mod 2 ^ (n - 1) =? 0) |}.

(** The overflow threshold [2^1024] in units of [2^-1074]. *)
Definition top : Z := 2 ^ 2098.

(** A magnitude with its sign bit. *)
Definition sgn (s : bool) (v : Z) : Z := if s then - v else v.

(** The value of a float in units of the smallest subnormal; infinities sit
    at the overflow threshold. *)
Definition key (x : spec_float) : Z :=
  match x with
  | S754_zero _ => 0
  | S754_infinity s => sgn s top
  | S754_nan => 0
  | S754_finite s m e => sgn s (Z.pos m * 2 ^ (e + 1074))
  end.

(** Well-formed numbers: the mantissa is canonical and the exponent in
    range. *)
Definition valid64 (x : spec_float) : Prop := valid_binary prec emax x = true.

(** The key of the rounding of [M * 2^e]. *)
Definition rkey (M e : Z) : Z :=
  let c := fexp64 (Zdigits2 M + e) in
  Z.min (rne M (c - e) * 2 ^ (c + 1074)) top.

(** A result of sign [s] that is not NaN. *)
Definition shape (s : bool) (r : spec_float) : Prop :=
  r = S754_zero s \/ r = S754_infinity s \/ exists m e, r = S754_finite s m e.

(** Rounding of a non-negative, and of a signed, multiple of [2^-1074]. *)
Definition Rv (V : Z) : Z := rkey V (-1074).
Definition Rs (V : Z) : Z := if V <? 0 then - Rv (- V) else Rv V.

(** Zeros and finite numbers. *)
Definition is_finite (x : spec_float) : Prop :=
  match x with
  | S754_zero _ | S754_finite _ _ _ => True
  | _ => False
  end.
End Binary64.

(** ** Exceptions, outcomes and the heap of arrays *)

(** [IndexError] is what numpy raises for an index out of range,
    [ValueError] what pandas raises for a negative centre of mass, and
    [OverflowError] what Python raises for an [int] too large for a float.
    The other two are the error kinds the specification names. *)
Inductive exception : Set :=
  | IndexError
  | ValueError
  | OverflowError
  | InvalidParameterError
  | InsufficientDataError.

Inductive outcome (A : Type) : Type :=
  | Returned (a : A)
  | Raised (e : exception).
Arguments Returned {A} a.
Arguments Raised {A} e.

Definition loc : Set := nat.

Section Heap.
Context {F : Type}.

(** The arrays allocated so far; a reference is a position in the heap. *)
Definition heap : Type := list (list F).

(** Computations that read and write arrays and may raise. *)
Definition M (A : Type) : Type := heap -> outcome (A * heap).

Definition ret {A} (a : A) : M A := fun h => Returned (a, h).

Definition bind {A B} (c : M A) (k : A -> M B) : M B :=
  fun h => match c h with
           | Returned (a, h') => k a h'
           | Raised e => Raised e
           end.

Definition raise {A} (e : exception) : M A := fun _ => Raised e.

(** A fresh array. *)
Definition alloc (a : list F) : M loc := fun h => Returned (length h, h ++ [a]).

(** The contents behind a reference (a reference to nothing reads as the
    empty array; references handed out by [alloc] are never dangling). *)
Definition read (l : loc) : M (list F) := fun h => Returned (default [] (h !! l), h).

Definition write (l : loc) (a : list F) : M unit := fun h => Returned (tt, <[l := a]> h).
End Heap.
Arguments heap F : clear implicits.
Arguments M F A : clear implicits.

Notation "x <- c ;; k" := (bind c (fun x => k))
  (at level 100, c at next level, right associativity).
Notation "c ;;; k" := (bind c (fun _ => k))
  (at level 100, right associativity).

(** ** numpy primitives *)

Section Numpy.
Context {F : Type} `{FloatArith F}.

(** numpy's [pairwise_sum].  Eight running sums [r[0..7]] start as the
    first eight entries; every further full group of eight is added to them
    entry by entry:
<<
    for (i = 8; i < n - (n % 8); i += 8) { r[0] += a[i+0]; ... r[7] += a[i+7]; }
>>
    [add_blocks] returns the running sums and the [n % 8] entries left. *)
Fixpoint add_blocks (r : F * F * F * F * F * F * F * F) (a : list F)
    : (F * F * F * F * F * F * F * F) * list F :=
  match a with
  | x0 :: x1 :: x2 :: x3 :: x4 :: x5 :: x6 :: x7 :: a' =>
      let '(r0, r1, r2, r3, r4, r5, r6, r7) := r in
      add_blocks (fadd r0 x0, fadd r1 x1, fadd r2 x2, fadd r3 x3,
                  fadd r4 x4, fadd r5 x5, fadd r6 x6, fadd r7 x7) a'
  | _ => (r, a)
  end.

(** [res = ((r[0] + r[1]) + (r[2] + r[3])) + ((r[4] + r[5]) + (r[6] + r[7]))]. *)
Definition combine8 (r : F * F * F * F * F * F * F * F) : F :=
  let '(r0, r1, r2, r3, r4, r5, r6, r7) := r in
  fadd (fadd (fadd r0 r1) (fadd r2 r3)) (fadd (fadd r4 r5) (fadd r6 r7)).

(** A block of at most 128 entries: fewer than eight are added one after
    the other onto [0.]; otherwise the eight running sums are combined and
    the entries left are added one after the other. *)
Definition block_sum (a : list F) : F :=
  match a with
  | x0 :: x1 :: x2 :: x3 :: x4 :: x5 :: x6 :: x7 :: a' =>
      let '(r, rest) := add_blocks (x0, x1, x2, x3, x4, x5, x6, x7) a' in
      foldl fadd (combine8 r) rest
  | _ => foldl fadd zero a
  end.

(** Where a longer array is cut: [n2 = n / 2; n2 -= n2 % 8]. *)
Definition half8 (n : nat) : nat := n / 2 - (n / 2) mod 8.

(** Longer arrays are cut in two and the sums of the halves added.  Every
    call halves the length, so the length of the array is fuel enough
    ([pairwise_sum_unfold] below). *)
Fixpoint pairwise_sum_rec (fuel : nat) (a : list F) : F :=
  match fuel with
  | S fuel' =>
      if decide (length a <= 128) then block_sum a
      else fadd (pairwise_sum_rec fuel' (take (half8 (length a)) a))
                (pairwise_sum_rec fuel' (drop (half8 (length a)) a))
  | 0 => block_sum a
  end.

Definition pairwise_sum (a : list F) : F := pairwise_sum_rec (length a) a.

(** [np.sum(a)], that is [np.add.reduce(a)], on a one-dimensional
    [float64] array: the result starts as the identity [0.0] and the
    pairwise sum of the entries is added to it. *)
Definition np_sum (a : list F) : F := fadd zero (pairwise_sum a).

(** [np.mean(a)]: the sum divided by the number of elements. *)
Definition np_mean (a : list F) : F := fdiv (np_sum a) (of_nat (length a)).

(** [np.std(a)]: the square root of the mean of the squared deviations from
    the mean. *)
Definition np_std (a : list F) : F :=
  let arrmean := np_mean a in
  let x := map (fun v => fsub v arrmean) a in
  let x := map (fun d => fmul d d) x in
  fsqrt (np_mean x).

(** [np.where(a > t)[0].tolist()]: the positions, in increasing order, of
    the entries greater than [t]. *)
Fixpoint where_gt_from (i : nat) (a : list F) (t : F) : list nat :=
  match a with
  | [] => []
  | x :: r => if fgtb x t then i :: where_gt_from (S i) r t
              else where_gt_from (S i) r t
  end.

Definition np_where_gt (a : list F) (t : F) : list nat := where_gt_from 0 a t.

(** [np.full(n, v)]: a fresh array of [n] copies of [v]. *)
Definition np_full (n : nat) (v : F) : M F loc := alloc (replicate n v).

(** [np.array(a)]: a fresh copy of the array behind [a]. *)
Definition np_array (a : loc) : M F loc := x <- read a ;; alloc x.

(** [a[idx]] for a list of indices: the selected values, or [IndexError]. *)
Fixpoint take_values (a : list F) (idx : list nat) : outcome (list F) :=
  match idx with
  | [] => Returned []
  | i :: r =>
      match a !! i with
      | None => Raised IndexError
      | Some v =>
          match take_values a r with
          | Returned vs => Returned (v :: vs)
          | Raised e => Raised e
          end
      end
  end.

Definition np_take (a : loc) (idx : list nat) : M F (list F) :=
  x <- read a ;;
  match take_values x idx with
  | Returned vs => ret vs
  | Raised e => raise e
  end.

(** [a[idx] = vs] on the contents of an array: one store per index, in
    order, or [IndexError]. *)
Fixpoint put_values (a : list F) (idx : list nat) (vs : list F) : outcome (list F) :=
  match idx, vs with
  | i :: r, v :: vs' =>
      if decide (i < length a) then put_values (<[i := v]> a) r vs'
      else Raised IndexError
  | _, _ => Returned a
  end.

Definition np_put (a : loc) (idx : list nat) (vs : list F) : M F unit :=
  x <- read a ;;
  match put_values x idx vs with
  | Returned x' => write a x'
  | Raised e => raise e
  end.
End Numpy.

(** ** The global-threshold cell *)

(** The variables the cell binds. *)
Record cell_vars (F : Type) : Type := {
  m : F;
  std : F;
  idx : list nat;
  anoms : loc;
  anoms_orig : loc
}.
Arguments m {F} _.
Arguments std {F} _.
Arguments idx {F} _.
Arguments anoms {F} _.
Arguments anoms_orig {F} _.

Section Detector.
Context {F : Type} `{FloatArith F}.

(** The threshold the cell compares against: [m + tolerance * std]. *)
Definition threshold (tolerance : F) (v : cell_vars F) : F :=
  fadd (m v) (fmul tolerance (std v)).

(** The cell
<<
    m = np.mean(y)
    std = np.std(y)
    idx = np.where(y > m + tolerance * std)[0].tolist()
    anoms = np.full(y.shape[0], np.nan)
    anoms[idx] = y[idx]
    anoms_orig = np.array(anoms)
>>
    as the function of [y] and [tolerance] that the notebook asks for, with
    [tolerance] the [float64] operand of the product [tolerance * std]
    ([detect_anomalies_py] below takes the Python number).  It contains no
    [raise]; the only exception in reach on this path is numpy's own
    [IndexError]. *)
Definition detect_anomalies (y : loc) (tolerance : F) : M F (cell_vars F) :=
  ya <- read y ;;
  let m := np_mean ya in
  let std := np_std ya in
  let idx := np_where_gt ya (fadd m (fmul tolerance std)) in
  anoms <- np_full (length ya) nan ;;
  vs <- np_take y idx ;;
  np_put anoms idx vs ;;;
  anoms_orig <- np_array anoms ;;
  ret {| m := m; std := std; idx := idx; anoms := anoms; anoms_orig := anoms_orig |}.
End Detector.




(** ** Exponentially weighted statistics (the data-preparation notebook) *)

(** [series.ewm(window_size)] passes [window_size] as the centre of mass [com]
    and keeps pandas' defaults [adjust=True], [ignore_na=False],
    [min_periods=0] and, for [std], [bias=False].  The two loops below are
    pandas' [ewma] and [ewmcov] under those defaults. *)
Section Pandas.
Context {F : Type} `{FloatArith F}.

Definition is_observation (x : F) : bool := feqb x x.

Definition count_observation (x : F) : nat := if is_observation x then 1 else 0.

(** The smoothing factors: [alpha = 1 / (1 + com)], [old_wt_factor = 1 - alpha]
    and, with [adjust=True], [new_wt = 1]. *)
Definition old_wt_factor (com : F) : F := fsub one (fdiv one (fadd one com)).
Definition new_wt : F := one.

(** The update of a running weighted mean by one sample. *)
Definition ewm_update (old_wt avg cur : F) : F :=
  if negb (feqb avg cur)
  then fdiv (fadd (fmul old_wt avg) (fmul new_wt cur)) (fadd old_wt new_wt)
  else avg.

Record ewma_state : Type := {
  weighted_avg : F;
  ewma_old_wt : F;
  ewma_nobs : nat
}.

Definition ewma_step (owf : F) (st : ewma_state) (cur : F) : ewma_state :=
  let nobs := ewma_nobs st + count_observation cur in
  if is_observation (weighted_avg st) then
    let old_wt := fmul (ewma_old_wt st) owf in
    if is_observation cur then
      {| weighted_avg := ewm_update old_wt (weighted_avg st) cur;
         ewma_old_wt := fadd old_wt new_wt;
         ewma_nobs := nobs |}
    else
      {| weighted_avg := weighted_avg st; ewma_old_wt := old_wt; ewma_nobs := nobs |}
  else if is_observation cur then
    {| weighted_avg := cur; ewma_old_wt := ewma_old_wt st; ewma_nobs := nobs |}
  else
    {| weighted_avg := weighted_avg st; ewma_old_wt := ewma_old_wt st; ewma_nobs := nobs |}.

(** [output[i] = weighted_avg if nobs >= minp else NaN], with [minp = 1]. *)
Definition ewma_output (st : ewma_state) : F :=
  if decide (1 <= ewma_nobs st) then weighted_avg st else nan.

Fixpoint ewma_loop (owf : F) (st : ewma_state) (input : list F) : list F :=
  match input with
  | [] => []
  | cur :: r =>
      let st' := ewma_step owf st cur in
      ewma_output st' :: ewma_loop owf st' r
  end.

Definition ewma (input : list F) (com : F) : list F :=
  match input with
  | [] => []
  | x0 :: r =>
      let st := {| weighted_avg := x0; ewma_old_wt := one;
                   ewma_nobs := count_observation x0 |} in
      ewma_output st :: ewma_loop (old_wt_factor com) st r
  end.

Record ewmcov_state : Type := {
  mean_x : F;
  mean_y : F;
  cov : F;
  sum_wt : F;
  sum_wt2 : F;
  old_wt : F;
  nobs : nat
}.

Definition ewmcov_step (owf : F) (st : ewmcov_state) (cur : F * F) : ewmcov_state :=
  let '(cur_x, cur_y) := cur in
  let is_obs := is_observation cur_x && is_observation cur_y in
  let nobs := nobs st + (if is_obs then 1 else 0) in
  if is_observation (mean_x st) then
    let sum_wt := fmul (sum_wt st) owf in
    let sum_wt2 := fmul (sum_wt2 st) (fmul owf owf) in
    let old_wt := fmul (old_wt st) owf in
    if is_obs then
      let old_mean_x := mean_x st in
      let old_mean_y := mean_y st in
      let mean_x := ewm_update old_wt old_mean_x cur_x in
      let mean_y := ewm_update old_wt old_mean_y cur_y in
      let cov :=
        fdiv (fadd (fmul old_wt (fadd (cov st)
                                      (fmul (fsub old_mean_x mean_x)
                                            (fsub old_mean_y mean_y))))
                   (fmul new_wt (fmul (fsub cur_x mean_x) (fsub cur_y mean_y))))
             (fadd old_wt new_wt) in
      {| mean_x := mean_x; mean_y := mean_y; cov := cov;
         sum_wt := fadd sum_wt new_wt;
         sum_wt2 := fadd sum_wt2 (fmul new_wt new_wt);
         old_wt := fadd old_wt new_wt;
         nobs := nobs |}
    else
      {| mean_x := mean_x st; mean_y := mean_y st; cov := cov st;
         sum_wt := sum_wt; sum_wt2 := sum_wt2; old_wt := old_wt; nobs := nobs |}
  else if is_obs then
    {| mean_x := cur_x; mean_y := cur_y; cov := cov st;
       sum_wt := sum_wt st; sum_wt2 := sum_wt2 st; old_wt := old_wt st; nobs := nobs |}
  else
    {| mean_x := mean_x st; mean_y := mean_y st; cov := cov st;
       sum_wt := sum_wt st; sum_wt2 := sum_wt2 st; old_wt := old_wt st; nobs := nobs |}.

(** The unbiased output: [cov] scaled by
    [sum_wt^2 / (sum_wt^2 - sum_wt2)], NaN when the denominator is not
    positive or nothing was observed. *)
Definition ewmcov_output (st : ewmcov_state) : F :=
  if decide (1 <= nobs st) then
    let numerator := fmul (sum_wt st) (sum_wt st) in
    let denominator := fsub numerator (sum_wt2 st) in
    if fgtb denominator zero then fmul (fdiv numerator denominator) (cov st)
    else nan
  else nan.

Fixpoint ewmcov_loop (owf : F) (st : ewmcov_state) (input : list (F * F)) : list F :=
  match input with
  | [] => []
  | cur :: r =>
      let st' := ewmcov_step owf st cur in
      ewmcov_output st' :: ewmcov_loop owf st' r
  end.

Definition ewmcov (input_x input_y : list F) (com : F) : list F :=
  match zip input_x input_y with
  | [] => []
  | (x0, y0) :: r =>
      let is_obs := is_observation x0 && is_observation y0 in
      let st := {| mean_x := if is_obs then x0 else nan;
                   mean_y := if is_obs then y0 else nan;
                   cov := zero; sum_wt := one; sum_wt2 := one; old_wt := one;
                   nobs := if is_obs then 1 else 0 |} in
      nan :: ewmcov_loop (old_wt_factor com) st r
  end.

(** pandas' [_zsqrt]: the square root, with negative entries set to zero. *)
Definition zsqrt (x : F) : F := if fltb x zero then zero else fsqrt x.

(** [series.ewm(com)] checks the centre of mass before anything else:
<<
    if comass < 0:
        raise ValueError("comass must satisfy: comass >= 0")
>>
    [ewm_mean] and [ewm_std] below are the results for a centre of mass that
    passes the check; the cells pass [window_size], a length. *)
Definition get_center_of_mass (comass : F) : outcome F :=
  if fltb comass zero then Raised ValueError else Returned comass.

(** pandas' [_prep_values]: the infinite samples are replaced by NaN before
    the loops run. *)
Definition prep_values (values : list F) : list F :=
  map (fun x => if fisinf x then nan else x) values.

(** [series.ewm(com).mean()] and [series.ewm(com).std()]. *)
Definition ewm_mean (series : list F) (com : F) : list F :=
  ewma (prep_values series) com.

Definition ewm_std (series : list F) (com : F) : list F :=
  map zsqrt (ewmcov (prep_values series) (prep_values series) com).

(** [a[lo:hi]] for non-negative bounds. *)
Definition slice (a : list F) (lo hi : nat) : list F := take (hi - lo) (drop lo a).

(** The band [rm + k * rstd], entry by entry. *)
Definition upper_band (rm rstd : list F) (k : F) : list F :=
  zip_with (fun mu s => fadd mu (fmul k s)) rm rstd.

Definition lower_band (rm rstd : list F) (k : F) : list F :=
  zip_with (fun mu s => fsub mu (fmul k s)) rm rstd.

(** The Bollinger-band cell
<<
    rstd = df_s[sensor].ewm(window_size).std()
    rm = df_s[sensor].ewm(window_size).mean()
    ... rm[window_size:sample_size] - 2 * rstd[window_size:sample_size] ...
    ... rm[window_size:sample_size] + 2 * rstd[window_size:sample_size] ...
>>
    returning the two curves it draws. *)
Definition bollinger_bands (sensor : list F) (window_size sample_size : nat)
    : list F * list F :=
  let rstd := ewm_std sensor (of_nat window_size) in
  let rm := ewm_mean sensor (of_nat window_size) in
  (lower_band (slice rm window_size sample_size)
              (slice rstd window_size sample_size) (of_nat 2),
   upper_band (slice rm window_size sample_size)
              (slice rstd window_size sample_size) (of_nat 2)).
End Pandas.

(** ** Decomposition followed by detection *)

(** The three arrays of an [STL] object. *)
Record stl_result : Set := {
  trend : loc;
  seasonal : loc;
  remainder : loc
}.

(** The configuration of the specification's detector and driver. *)
Record DetectionConfig (F : Type) : Type := {
  tolerance : F;
  window : option nat;
  period : option nat
}.
Arguments tolerance {F} _.
Arguments window {F} _.
Arguments period {F} _.

Section Driver.
Context {F : Type} `{FloatArith F}.

(** [STL(ts, freq=..., s_window='periodic')] is the constructor of the
    third-party package [rstl]; the cells only call it. *)
Variable STL : loc -> nat -> M F stl_result.

(** The detector for a configured window; the sources hold no such
    function. *)
Variable rolling_detector : loc -> F -> nat -> M F (cell_vars F).

(** The cells
<<
    stl = STL(y_mod_lin, freq=24*7, s_window='periodic')
    anoms = detect_anomalies(stl.remainder)
>>
    for a series, a frequency and the tolerance of [detect_anomalies]. *)
Definition stl_then_detect (y_mod_lin : loc) (freq : nat) (tol : F)
    : M F (cell_vars F * loc) :=
  stl <- STL y_mod_lin freq ;;
  v <- detect_anomalies (remainder stl) tol ;;
  ret (v, remainder stl).

(** The detector of the specification: global statistics without a
    window, the windowed detector with one. *)
Definition detect (series : loc) (config : DetectionConfig F) : M F (cell_vars F) :=
  match window config with
  | None => detect_anomalies series (tolerance config)
  | Some w => rolling_detector series (tolerance config) w
  end.

(** Modelled from the spec: the driver [detect_anomalies_stl] is defined in
    [solutions/basic_anom_detect_stl.py], which is not among the sources;
    the notebook only calls it.  With a period it decomposes and runs the
    detector on the remainder; without one it runs the detector on the
    series and hands the series back. *)
Definition detect_anomalies_with_decomposition
    (series : loc) (config : DetectionConfig F) : M F (cell_vars F * loc) :=
  match period config with
  | Some p =>
      d <- STL series p ;;
      report <- detect (remainder d) config ;;
      ret (report, remainder d)
  | None =>
      report <- detect series config ;;
      ret (report, series)
  end.

End Driver.

(** ** Lag curves, rolling windows and the figure panel (the data-preparation notebook) *)

Section Lags.
Context {F : Type} `{FloatArith F}.

(** [series.shift(-k)]: every value moves [k] places towards the start and
    the places freed at the end hold NaN; the length stays. *)
Definition shift_back (series : list F) (k : nat) : list F :=
  drop k series ++ replicate (min k (length series)) nan.

(** The lag curves [df_s[sensor][:sample_size].shift(-k)] of the cell
<<
    ax[r,c].plot(x[:sample_size], df_s[sensor][:sample_size].shift(-1), ...)
    ax[r,c].plot(x[:sample_size], df_s[sensor][:sample_size].shift(-2), ...)
    ax[r,c].plot(x[:sample_size], df_s[sensor][:sample_size].shift(-3), ...)
>> *)
Definition lag_curve (sensor : list F) (sample_size k : nat) : list F :=
  shift_back (slice sensor 0 sample_size) k.
End Lags.

(** [np.isfinite]: neither NaN nor an infinity. *)
Definition np_isfinite (x : Binary64.float64) : bool :=
  match x with
  | S754_zero _ | S754_finite _ _ _ => true
  | S754_infinity _ | S754_nan => false
  end.

(** The number of finite entries of a window. *)
Definition count_finite (win : list Binary64.float64) : nat :=
  length (List.filter np_isfinite win).

(** An infinity of the given sign, or NaN. *)
Definition inf_or_nan (s : bool) (x : Binary64.float64) : Prop :=
  x = S754_infinity s \/ x = S754_nan.

Section Rolling.

(** The function handed to [apply]; the notebook passes
    [scipy.stats.entropy]. *)
Variable func : list Binary64.float64 -> Binary64.float64.

(** [series.rolling(window).apply(func)] with pandas' defaults
    [min_periods = window] and [center=False]: the entry at [i] is [func] of
    the samples [i + 1 - window .. i] (fewer at the start of the series)
    when at least [window] of them are finite, and NaN otherwise. *)
Definition rolling_apply (window : nat) (series : list Binary64.float64)
    : list Binary64.float64 :=
  map (fun i => let win := slice series (i + 1 - window) (i + 1) in
                if decide (window <= count_finite win) then func win else nan)
      (seq 0 (length series)).

(** [rolling_entropy = sensor_data.rolling(12).apply(entropy)]. *)
Definition rolling_entropy (sensor_data : list Binary64.float64) : list Binary64.float64 :=
  rolling_apply 12 sensor_data.
End Rolling.

(** The panel of sensor number [s] in the loops over [enumerate(sensors)]:
<<
    c = s%2
    r = int(s/2)
>>
    as the pair [(r, c)].  ([s/2] is a float division; it is exact for a
    position in a list, so [int] gives the integer quotient.) *)
Definition panel_cell (s : nat) : nat * nat := (s / 2, s mod 2).

(** [ax[r,c]] on an array of [nrows] by [ncols] axes: the position, or
    numpy's [IndexError]. *)
Definition ax_lookup (nrows ncols : nat) (rc : nat * nat) : outcome (nat * nat) :=
  if decide (fst rc < nrows /\ snd rc < ncols) then Returned rc else Raised IndexError.

(** [ax[r,c]] for [fig, ax = plt.subplots(2, 2, ...)]. *)
Definition panel_of_sensor (s : nat) : outcome (nat * nat) :=
  ax_lookup 2 2 (panel_cell s).

(** ** Sample series *)

Definition y3 : list Binary64.float64 :=
  [Binary64.of_Z 1; Binary64.of_Z 2; Binary64.of_Z 3].

Definition s4 : list Binary64.float64 :=
  [Binary64.of_Z 1; Binary64.of_Z 2; Binary64.of_Z 4; Binary64.of_Z 8].

Definition with_nan : list Binary64.float64 :=
  [Binary64.of_Z 1; S754_nan; Binary64.of_Z 1000].

Definition with_inf : list Binary64.float64 :=
  [Binary64.of_Z 1; S754_infinity false; Binary64.of_Z 2].

Definition late_start : list Binary64.float64 :=
  [S754_nan; S754_nan; Binary64.of_Z 1].



Definition spike : list Binary64.float64 :=
  replicate 13 (Binary64.of_Z 1) ++ [Binary64.of_Z 100].

(** * Properties *)

(** ** Rounding in binary64 *)

Module Binary64Facts.
Import Binary64.
Local Open Scope Z_scope.

(** *** Number of binary digits

    [Zdigits2] is the binary logarithm plus one. *)
Lemma digits2_pos_log2 p : Z.pos (digits2_pos p) = Z.log2 (Z.pos p) + 1.
Proof.
  induction p as [p IH|p IH|]; simpl; try reflexivity.
  - rewrite Pos2Z.inj_succ, IH. destruct p; simpl; try reflexivity; lia.
  - rewrite Pos2Z.inj_succ, IH. destruct p; simpl; try reflexivity; lia.
Qed.

Lemma Zdigits2_log2 m : 0 < m -> Zdigits2 m = Z.log2 m + 1.
Proof. destruct m as [|p|p]; try lia. intros _. apply digits2_pos_log2. Qed.

Lemma Zdigits2_nonneg m : 0 <= Zdigits2 m.
Proof. destruct m; simpl; lia. Qed.

Lemma Zdigits2_bounds m : 0 < m -> 2 ^ (Zdigits2 m - 1) <= m < 2 ^ Zdigits2 m.
Proof.
  intros Hm. rewrite Zdigits2_log2 by assumption.
  replace (Z.log2 m + 1 - 1) with (Z.log2 m) by lia.
  replace (Z.log2 m + 1) with (Z.succ (Z.log2 m)) by lia.
  apply Z.log2_spec. assumption.
Qed.

Lemma Zdigits2_unique m d : 0 < m -> 2 ^ (d - 1) <= m < 2 ^ d -> Zdigits2 m = d.
Proof.
  intros Hm [H1 H2]. rewrite Zdigits2_log2 by assumption.
  assert (0 <= d - 1).
  { destruct (Z.le_gt_cases 0 (d - 1)) as [|Hneg]; [assumption|].
    assert (d <= 0) by lia. assert (2 ^ d <= 1).
    { destruct (Z.eq_dec d 0) as [->|]; [simpl; lia|]. rewrite Z.pow_neg_r by lia. lia. }
    lia. }
  assert (Z.log2 m = d - 1); [|lia].
  apply Z.log2_unique; [assumption|]. replace (Z.succ (d - 1)) with d by lia. lia.
Qed.

Lemma Zdigits2_le m n : 0 <= m <= n -> Zdigits2 m <= Zdigits2 n.
Proof.
  intros [H0 Hmn]. destruct (Z.eq_dec m 0) as [->|]; [simpl; apply Zdigits2_nonneg|].
  rewrite !Zdigits2_log2 by lia. pose proof (Z.log2_le_mono m n Hmn). lia.
Qed.

Lemma Zdigits2_mul_pow2 m k : 0 < m -> 0 <= k -> Zdigits2 (m * 2 ^ k) = Zdigits2 m + k.
Proof.
  intros Hm Hk. rewrite !Zdigits2_log2; [|assumption|].
  - rewrite Z.log2_mul_pow2 by lia. lia.
  - apply Z.mul_pos_pos; [assumption|]. apply Z.pow_pos_nonneg; lia.
Qed.

Lemma Zdigits2_div_pow2 m k : 0 <= m -> 0 <= k -> Zdigits2 (m / 2 ^ k) = Z.max 0 (Zdigits2 m - k).
Proof.
  intros Hm Hk.
  destruct (Z.eq_dec m 0) as [->|Hm0].
  { rewrite Z.div_0_l by (apply Z.pow_nonzero; lia). simpl. lia. }
  assert (Hpos : 0 < m) by lia.
  pose proof (Zdigits2_bounds m Hpos) as [Hlo Hhi].
  destruct (Z.lt_ge_cases (Zdigits2 m) (k + 1)) as [Hsmall|Hbig].
  - assert (m / 2 ^ k = 0) as ->.
    { apply Z.div_small. split; [lia|].
      eapply Z.lt_le_trans; [exact Hhi|]. apply Z.pow_le_mono_r; lia. }
    simpl. lia.
  - assert (Hq : 0 < m / 2 ^ k).
    { apply Z.div_str_pos. split; [apply Z.pow_pos_nonneg; lia|].
      eapply Z.le_trans; [|exact Hlo]. apply Z.pow_le_mono_r; lia. }
    rewrite Z.max_r by lia.
    apply Zdigits2_unique; [assumption|].
    assert (H2k : 0 < 2 ^ k) by (apply Z.pow_pos_nonneg; lia).
    split.
    + apply Z.div_le_lower_bound; [assumption|].
      rewrite <- Z.pow_add_r by lia. replace (k + (Zdigits2 m - k - 1)) with (Zdigits2 m - 1) by lia.
      assumption.
    + apply Z.div_lt_upper_bound; [assumption|].
      rewrite <- Z.pow_add_r by lia. replace (k + (Zdigits2 m - k)) with (Zdigits2 m) by lia.
      assumption.
Qed.

(** *** Shifting a mantissa right

    [shr_1] halves the mantissa and remembers the bit shifted out and
    whether any lower bit was set; [shr_spec M n] is the record after [n]
    shifts of [M]. *)
Lemma iter_pos_iter {A} (f : A -> A) p x : SpecFloat.iter_pos f p x = Pos.iter f x p.
Proof.
  revert x. induction p as [p IH|p IH|]; intros x; simpl.
  - rewrite !IH. rewrite <- !Pos.iter_swap. reflexivity.
  - rewrite !IH. reflexivity.
  - reflexivity.
Qed.

Lemma shr_1_nonneg m r s :
  0 <= m -> shr_1 (Build_shr_record m r s) = Build_shr_record (m / 2) (Z.odd m) (r || s).
Proof.
  intros Hm. destruct m as [|p|p]; try lia; simpl.
  - reflexivity.
  - destruct p as [p|p|]; simpl.
    + f_equal. rewrite Pos2Z.inj_xI. rewrite Z.mul_comm, Z.div_add_l by lia.
      change (1 / 2) with 0. lia.
    + f_equal. rewrite Pos2Z.inj_xO. rewrite Z.mul_comm, Z.div_mul by lia. reflexivity.
    + reflexivity.
Qed.

Lemma shr_1_exact M : 0 <= M -> shr_1 (Build_shr_record M false false) = shr_spec M 1.
Proof.
  intros HM. rewrite shr_1_nonneg by assumption. unfold shr_spec. simpl.
  rewrite Z.div_1_r, Z.mod_1_r. reflexivity.
Qed.

Lemma shr_1_spec M n : 0 <= M -> 1 <= n -> shr_1 (shr_spec M n) = shr_spec M (n + 1).
Proof.
  intros HM Hn. unfold shr_spec.
  assert (H2n : 0 < 2 ^ n) by (apply Z.pow_pos_nonneg; lia).
  assert (H2n1 : 0 < 2 ^ (n - 1)) by (apply Z.pow_pos_nonneg; lia).
  rewrite shr_1_nonneg by (apply Z.div_pos; lia).
  replace (n + 1 - 1) with n by lia.
  f_equal.
  - rewrite Z.div_div by lia. rewrite Z.pow_add_r by lia. reflexivity.
  - replace (2 ^ n) with (2 ^ (n - 1) * 2).
    2:{ rewrite <- (Z.pow_1_r 2) at 2. rewrite <- Z.pow_add_r by lia. f_equal. lia. }
    rewrite Z.rem_mul_r by lia.
    rewrite Zodd_mod.
    pose proof (Z.mod_pos_bound (M / 2 ^ (n - 1)) 2 ltac:(lia)).
    pose proof (Z.mod_pos_bound M (2 ^ (n - 1)) ltac:(lia)).
    destruct (Z.eqb_spec ((M / 2 ^ (n - 1)) mod 2) 1) as [E|E];
      destruct (Z.eqb_spec (M mod 2 ^ (n - 1)) 0) as [E2|E2]; simpl;
      symmetry; [apply negb_true_iff | apply negb_true_iff | apply negb_false_iff | apply negb_true_iff];
      try (apply Z.eqb_neq; nia); apply Z.eqb_eq; nia.
Qed.

Lemma iter_shr_1_exact M p :
  0 <= M -> Pos.iter shr_1 (Build_shr_record M false false) p = shr_spec M (Z.pos p).
Proof.
  intros HM. induction p as [|p IH] using Pos.peano_ind.
  - simpl. apply shr_1_exact. assumption.
  - rewrite Pos.iter_succ, IH, shr_1_spec by lia. f_equal. lia.
Qed.

Lemma iter_shr_1_m mrs p :
  0 <= shr_m mrs -> shr_m (Pos.iter shr_1 mrs p) = shr_m mrs / 2 ^ Z.pos p.
Proof.
  intros HM. induction p as [|p IH] using Pos.peano_ind.
  - destruct mrs as [m r s]. cbn [Pos.iter shr_m] in *. rewrite shr_1_nonneg by assumption.
    cbn [shr_m]. rewrite Z.pow_1_r. reflexivity.
  - rewrite Pos.iter_succ.
    assert (Hq : 0 <= shr_m (Pos.iter shr_1 mrs p)).
    { rewrite IH. apply Z.div_pos; [assumption|]. apply Z.pow_pos_nonneg; lia. }
    destruct (Pos.iter shr_1 mrs p) as [m r s]. cbn [shr_m] in *. rewrite shr_1_nonneg by assumption.
    cbn [shr_m]. rewrite IH, Z.div_div by (try apply Z.pow_pos_nonneg; lia).
    rewrite Pos2Z.inj_succ, Z.pow_succ_r by lia. f_equal. lia.
Qed.

(** Rounding the shifted record to nearest even is [rne]. *)
Lemma round_shr_spec M n :
  0 <= M -> 1 <= n ->
  round_nearest_even (shr_m (shr_spec M n)) (loc_of_shr_record (shr_spec M n)) = rne M n.
Proof.
  intros HM Hn. unfold shr_spec, rne. cbn [shr_m shr_r shr_s].
  assert (H2n1 : 0 < 2 ^ (n - 1)) by (apply Z.pow_pos_nonneg; lia).
  assert (E2n : 2 ^ n = 2 ^ (n - 1) * 2).
  { rewrite <- (Z.pow_1_r 2) at 3. rewrite <- Z.pow_add_r by lia. f_equal. lia. }
  assert (Hrem : M mod 2 ^ n = M mod 2 ^ (n - 1) + 2 ^ (n - 1) * ((M / 2 ^ (n - 1)) mod 2)).
  { rewrite E2n. apply Z.rem_mul_r; lia. }
  pose proof (Z.mod_pos_bound (M / 2 ^ (n - 1)) 2 ltac:(lia)) as Hb.
  pose proof (Z.mod_pos_bound M (2 ^ (n - 1)) ltac:(lia)) as Hl.
  pose proof (Zodd_mod (M / 2 ^ (n - 1))) as Ho.
  set (q := M / 2 ^ n) in *. set (r := M mod 2 ^ n) in *.
  set (lo := M mod 2 ^ (n - 1)) in *. set (b := (M / 2 ^ (n - 1)) mod 2) in *.
  set (P := 2 ^ n) in *. set (P1 := 2 ^ (n - 1)) in *.
  destruct (Z.odd (M / P1)); symmetry in Ho;
    [apply Z.eqb_eq in Ho | apply Z.eqb_neq in Ho];
    destruct (Z.eqb_spec lo 0) as [E2|E2]; cbn [negb loc_of_shr_record round_nearest_even];
    destruct (Z.ltb_spec P (2 * r)); destruct (Z.eqb_spec (2 * r) P);
    cbn [orb andb]; try lia; try reflexivity;
    rewrite <- Z.negb_odd; destruct (Z.odd q); reflexivity.
Qed.

(** *** Round to nearest even

    [rne] moves by less than one unit, is monotone, and does not depend on
    the scale of the representation. *)
Lemma rne_0 M : rne M 0 = M.
Proof.
  unfold rne. rewrite Z.pow_0_r, Z.div_1_r, Z.mod_1_r. simpl. reflexivity.
Qed.

Lemma rne_bounds M n : 0 <= n -> M / 2 ^ n <= rne M n <= M / 2 ^ n + 1.
Proof. intros Hn. unfold rne. destruct (_ || _); lia. Qed.

Lemma rne_mono M1 M2 n : 0 <= n -> M1 <= M2 -> rne M1 n <= rne M2 n.
Proof.
  intros Hn HM. unfold rne.
  assert (HP : 0 < 2 ^ n) by (apply Z.pow_pos_nonneg; lia).
  pose proof (Z.div_mod M1 (2 ^ n) ltac:(lia)) as E1.
  pose proof (Z.div_mod M2 (2 ^ n) ltac:(lia)) as E2.
  pose proof (Z.mod_pos_bound M1 (2 ^ n) HP).
  pose proof (Z.mod_pos_bound M2 (2 ^ n) HP).
  pose proof (Z.div_le_mono M1 M2 (2 ^ n) HP HM) as Hq.
  set (q1 := M1 / 2 ^ n) in *. set (q2 := M2 / 2 ^ n) in *.
  set (r1 := M1 mod 2 ^ n) in *. set (r2 := M2 mod 2 ^ n) in *.
  set (P := 2 ^ n) in *.
  destruct (Z.eq_dec q1 q2) as [Eq|Nq].
  - rewrite <- Eq in *. assert (r1 <= r2) by nia.
    destruct (Z.ltb_spec P (2 * r1)); destruct (Z.ltb_spec P (2 * r2));
      destruct (Z.eqb_spec (2 * r1) P); destruct (Z.eqb_spec (2 * r2) P);
      destruct (Z.odd q1); simpl; lia.
  - destruct (_ || _); destruct (_ || _); lia.
Qed.

Lemma rne_scale M n k : 0 <= n -> 0 <= k -> rne (M * 2 ^ k) (n + k) = rne M n.
Proof.
  intros Hn Hk. unfold rne.
  assert (HP : 0 < 2 ^ n) by (apply Z.pow_pos_nonneg; lia).
  assert (HK : 0 < 2 ^ k) by (apply Z.pow_pos_nonneg; lia).
  rewrite Z.pow_add_r by lia.
  rewrite Z.div_mul_cancel_r by lia.
  rewrite Z.mul_mod_distr_r by lia.
  replace (2 ^ n * 2 ^ k <? 2 * (M mod 2 ^ n * 2 ^ k)) with (2 ^ n <? 2 * (M mod 2 ^ n)).
  2:{ destruct (Z.ltb_spec (2 ^ n) (2 * (M mod 2 ^ n)));
      destruct (Z.ltb_spec (2 ^ n * 2 ^ k) (2 * (M mod 2 ^ n * 2 ^ k))); try reflexivity; nia. }
  replace (2 * (M mod 2 ^ n * 2 ^ k) =? 2 ^ n * 2 ^ k) with (2 * (M mod 2 ^ n) =? 2 ^ n).
  2:{ destruct (Z.eqb_spec (2 * (M mod 2 ^ n)) (2 ^ n));
      destruct (Z.eqb_spec (2 * (M mod 2 ^ n * 2 ^ k)) (2 ^ n * 2 ^ k)); try reflexivity; nia. }
  reflexivity.
Qed.

Lemma rne_exact q n : 0 <= n -> rne (q * 2 ^ n) n = q.
Proof.
  intros Hn. replace n with (0 + n) at 2 by lia. rewrite rne_scale by lia. apply rne_0.
Qed.

(** *** The two stages of [binary_round_aux] *)

Lemma fexp64_eq e : fexp64 e = Z.max (e - 53) (-1074).
Proof. reflexivity. Qed.

Lemma fexp64_mono a b : a <= b -> fexp64 a <= fexp64 b.
Proof. rewrite !fexp64_eq. lia. Qed.

Lemma shr_m_record_of_loc m l : shr_m (shr_record_of_loc m l) = m.
Proof. destruct l as [|[]]; reflexivity. Qed.

Lemma round_nearest_even_bounds m l : m <= round_nearest_even m l <= m + 1.
Proof. destruct l as [|[]]; simpl; try destruct (Z.even m); lia. Qed.

(** First stage: the mantissa is cut down to the precision of the format. *)
Lemma shr_fexp_first M e l :
  0 <= M -> e <= fexp64 (Zdigits2 M + e) ->
  exists mrs, shr_fexp prec emax M e l = (mrs, fexp64 (Zdigits2 M + e)) /\
              shr_m mrs = M / 2 ^ (fexp64 (Zdigits2 M + e) - e) /\
              (l = loc_Exact ->
               round_nearest_even (shr_m mrs) (loc_of_shr_record mrs) =
               rne M (fexp64 (Zdigits2 M + e) - e)).
Proof.
  intros HM He. unfold shr_fexp, shr.
  destruct (fexp64 (Zdigits2 M + e) - e) as [|p|p] eqn:En; [| |lia].
  - eexists. split; [f_equal; lia|]. rewrite shr_m_record_of_loc, Z.pow_0_r, Z.div_1_r.
    split; [reflexivity|]. intros ->. simpl. rewrite rne_0. reflexivity.
  - eexists. split; [f_equal; lia|]. rewrite iter_pos_iter. split.
    + rewrite iter_shr_1_m; rewrite shr_m_record_of_loc; [reflexivity | assumption].
    + intros ->. cbn [shr_record_of_loc]. rewrite iter_shr_1_exact by assumption.
      apply round_shr_spec; lia.
Qed.

(** Digits after the first stage. *)
Lemma first_stage_digits M e :
  0 <= M -> e <= fexp64 (Zdigits2 M + e) ->
  let e1 := fexp64 (Zdigits2 M + e) in
  let m1 := M / 2 ^ (e1 - e) in
  0 <= m1 /\ -1074 <= e1 /\ Zdigits2 m1 <= 53 /\ (Zdigits2 m1 = 53 \/ e1 = -1074).
Proof.
  intros HM He e1 m1. unfold m1.
  assert (He1 : e1 = Z.max (Zdigits2 M + e - 53) (-1074)) by reflexivity.
  split; [apply Z.div_pos; [assumption | apply Z.pow_pos_nonneg; lia]|].
  split; [lia|].
  rewrite Zdigits2_div_pow2 by (fold e1 in He; lia).
  pose proof (Zdigits2_nonneg M). lia.
Qed.

(** Second stage: after rounding, one more shift repairs a carry. *)
Lemma shr_fexp_second m1 k e1 :
  0 <= m1 -> m1 <= k <= m1 + 1 -> -1074 <= e1 ->
  Zdigits2 m1 <= 53 -> (Zdigits2 m1 = 53 \/ e1 = -1074) ->
  exists mrs e2, shr_fexp prec emax k e1 loc_Exact = (mrs, e2) /\
    0 <= shr_m mrs /\ -1074 <= e2 /\
    shr_m mrs * 2 ^ (e2 + 1074) = k * 2 ^ (e1 + 1074) /\
    (shr_m mrs = 0 \/ fexp64 (Zdigits2 (shr_m mrs) + e2) = e2).
Proof.
  intros Hm1 Hk He1 Hd Hc.
  assert (Hk53 : k <= 2 ^ 53).
  { destruct (Z.eq_dec m1 0) as [->|]; [simpl in *; lia|].
    pose proof (Zdigits2_bounds m1 ltac:(lia)) as [_ Hhi].
    assert (2 ^ Zdigits2 m1 <= 2 ^ 53) by (apply Z.pow_le_mono_r; lia). lia. }
  destruct (Z.eq_dec k (2 ^ 53)) as [Ek|Nk].
  - subst k. unfold shr_fexp, shr.
    replace (fexp64 (Zdigits2 (2 ^ 53) + e1) - e1) with 1.
    2:{ change (Zdigits2 (2 ^ 53)) with 54. rewrite fexp64_eq. lia. }
    eexists _, _. split; [reflexivity|]. cbn [SpecFloat.iter_pos shr_record_of_loc].
    rewrite shr_1_nonneg by lia. cbn [shr_m].
    change (2 ^ 53 / 2) with (2 ^ 52).
    split; [lia|]. split; [lia|]. split.
    + replace (e1 + 1 + 1074) with (Z.succ (e1 + 1074)) by lia.
      rewrite Z.pow_succ_r by lia. change (2 ^ 53) with (2 ^ 52 * 2). ring.
    + right. change (Zdigits2 (2 ^ 52)) with 53. rewrite fexp64_eq. lia.
  - assert (Hdk : Zdigits2 k <= 53).
    { destruct (Z.eq_dec k 0) as [->|]; [simpl; lia|].
      destruct (Z.le_gt_cases (Zdigits2 k) 53) as [|Hgt]; [assumption|].
      pose proof (Zdigits2_bounds k ltac:(lia)) as [Hlo _].
      assert (2 ^ 53 <= 2 ^ (Zdigits2 k - 1)) by (apply Z.pow_le_mono_r; lia). lia. }
    assert (Hdk' : Zdigits2 m1 <= Zdigits2 k) by (apply Zdigits2_le; lia).
    unfold shr_fexp, shr.
    assert (Hn : fexp64 (Zdigits2 k + e1) - e1 = 0) by (rewrite fexp64_eq; lia).
    rewrite Hn. eexists _, _. split; [reflexivity|]. cbn [shr_record_of_loc shr_m].
    split; [lia|]. split; [lia|]. split; [reflexivity|].
    right. lia.
Qed.

(** *** Keys: comparing floats as integers *)

Lemma top_eq : top = 2 ^ 2098.
Proof. reflexivity. Qed.

Lemma top_split : top = 2 ^ 53 * 2 ^ 2045.
Proof. rewrite top_eq, <- Z.pow_add_r by lia. reflexivity. Qed.

#[global] Opaque top.

Lemma bounded_iff m e :
  bounded prec emax m e = true <-> fexp64 (Zdigits2 (Z.pos m) + e) = e /\ e <= 971.
Proof.
  unfold bounded, canonical_mantissa. rewrite andb_true_iff, Z.eqb_eq, Z.leb_le.
  reflexivity.
Qed.

Lemma canonical_facts m e :
  0 < m -> fexp64 (Zdigits2 m + e) = e ->
  -1074 <= e /\ Zdigits2 m <= 53 /\ m < 2 ^ 53 /\ (-1074 < e -> 2 ^ 52 <= m).
Proof.
  intros Hm Hc. rewrite fexp64_eq in Hc.
  pose proof (Zdigits2_bounds m Hm) as [Hlo Hhi].
  assert (Hd : Zdigits2 m <= 53) by lia.
  split; [lia|]. split; [assumption|]. split.
  - eapply Z.lt_le_trans; [exact Hhi|]. apply Z.pow_le_mono_r; lia.
  - intros He. assert (Zdigits2 m = 53) as Hd53 by lia. rewrite Hd53 in Hlo. exact Hlo.
Qed.

Lemma pow2_pos k : 0 <= k -> 0 < 2 ^ k.
Proof. intros. apply Z.pow_pos_nonneg; lia. Qed.

Lemma valid_finite_key (s : bool) m e :
  bounded prec emax m e = true -> 0 < Z.pos m * 2 ^ (e + 1074) < top.
Proof.
  intros Hb. apply bounded_iff in Hb as [Hc He].
  destruct (canonical_facts (Z.pos m) e (Pos2Z.is_pos m) Hc) as (He0 & _ & Hm & _).
  pose proof (pow2_pos (e + 1074) ltac:(lia)) as Hp.
  split; [lia|]. rewrite top_split.
  assert (2 ^ (e + 1074) <= 2 ^ 2045) by (apply Z.pow_le_mono_r; lia).
  nia.
Qed.

(** Canonical mantissas and exponents are ordered as their values. *)
Lemma canonical_lex m1 e1 m2 e2 :
  fexp64 (Zdigits2 (Z.pos m1) + e1) = e1 -> fexp64 (Zdigits2 (Z.pos m2) + e2) = e2 ->
  match e1 ?= e2 with
  | Lt => Lt
  | Gt => Gt
  | Eq => Pos.compare_cont Eq m1 m2
  end = (Z.pos m1 * 2 ^ (e1 + 1074) ?= Z.pos m2 * 2 ^ (e2 + 1074)).
Proof.
  intros H1 H2.
  destruct (canonical_facts (Z.pos m1) e1 (Pos2Z.is_pos m1) H1) as (He1 & _ & Hm1 & Hn1).
  destruct (canonical_facts (Z.pos m2) e2 (Pos2Z.is_pos m2) H2) as (He2 & _ & Hm2 & Hn2).
  assert (Hstep : forall ma ea mb eb, -1074 <= ea -> ea < eb -> 0 < ma < 2 ^ 53 -> 2 ^ 52 <= mb ->
            ma * 2 ^ (ea + 1074) < mb * 2 ^ (eb + 1074)).
  { intros ma ea mb eb Hea Hlt Hma Hmb.
    replace (eb + 1074) with ((ea + 1074) + (eb - ea)) by lia.
    rewrite (Z.pow_add_r 2 (ea + 1074) (eb - ea)) by lia.
    pose proof (pow2_pos (ea + 1074) ltac:(lia)) as Hp.
    assert (2 ^ 1 <= 2 ^ (eb - ea)) by (apply Z.pow_le_mono_r; lia).
    change (2 ^ 1) with 2 in *. change (2 ^ 53) with (2 ^ 52 * 2) in Hma.
    assert (HP : 0 < 2 ^ 52) by (apply pow2_pos; lia).
    set (P := 2 ^ 52) in *. set (a := 2 ^ (ea + 1074)) in *. set (c := 2 ^ (eb - ea)) in *.
    clearbody P a c.
    assert (P * 2 <= mb * c) by nia.
    assert (ma * a < mb * c * a) by nia. lia. }
  symmetry. destruct (Z.compare_spec e1 e2) as [->|Hlt|Hgt].
  - change (Pos.compare_cont Eq m1 m2) with (Z.pos m1 ?= Z.pos m2).
    pose proof (pow2_pos (e2 + 1074) ltac:(lia)) as Hp.
    destruct (Z.compare_spec (Z.pos m1) (Z.pos m2)) as [E|L|G].
    + rewrite E. apply Z.compare_refl.
    + apply Z.compare_lt_iff. nia.
    + apply Z.compare_gt_iff. nia.
  - apply Z.compare_lt_iff. apply Hstep; try lia; try (apply Hn2; lia).
  - apply Z.compare_gt_iff. apply Hstep; try lia; try (apply Hn1; lia).
Qed.

Lemma sgn_true v : sgn true v = - v. Proof. reflexivity. Qed.
Lemma sgn_false v : sgn false v = v. Proof. reflexivity. Qed.

Lemma top_pos : 0 < top.
Proof. rewrite top_eq. apply pow2_pos. lia. Qed.

(** On well-formed numbers the comparison of floats is the comparison of
    their keys. *)
Lemma SFcompare_key x y :
  valid64 x -> valid64 y -> x <> S754_nan -> y <> S754_nan ->
  SFcompare x y = Some (key x ?= key y).
Proof.
  unfold valid64. pose proof top_pos as Ht.
  destruct x as [sx|sx| |sx mx ex], y as [sy|sy| |sy my ey];
    unfold SFcompare, key, valid_binary;
    intros Hx Hy Nx Ny; try congruence;
    try (pose proof (valid_finite_key sx mx ex Hx) as Kx);
    try (pose proof (valid_finite_key sy my ey Hy) as Ky);
    try (destruct sx); try (destruct sy); cbn [sgn]; f_equal; symmetry;
    try (apply Z.compare_eq_iff; lia);
    try (apply Z.compare_lt_iff; lia);
    try (apply Z.compare_gt_iff; lia).
  - apply bounded_iff in Hx as [Hx _]. apply bounded_iff in Hy as [Hy _].
    rewrite Z.compare_opp, Z.compare_antisym, <- (canonical_lex mx ex my ey Hx Hy).
    destruct (ex ?= ey); reflexivity.
  - apply bounded_iff in Hx as [Hx _]. apply bounded_iff in Hy as [Hy _].
    rewrite <- (canonical_lex mx ex my ey Hx Hy). reflexivity.
Qed.

(** *** The result of rounding *)

Lemma sgn_0 s : sgn s 0 = 0.
Proof. destruct s; reflexivity. Qed.

(** The last step of rounding: from a canonical mantissa to a float. *)
Lemma finish_round sx m2 e2 v :
  0 <= m2 -> -1074 <= e2 ->
  m2 * 2 ^ (e2 + 1074) = v ->
  (m2 = 0 \/ fexp64 (Zdigits2 m2 + e2) = e2) ->
  let r := match m2 with
           | 0 => S754_zero sx
           | Z.pos m => if e2 <=? emax - prec then S754_finite sx m e2 else S754_infinity sx
           | Z.neg _ => S754_nan
           end in
  valid64 r /\ r <> S754_nan /\ key r = sgn sx (Z.min v top) /\
  (r = S754_zero sx \/ r = S754_infinity sx \/ exists m e, r = S754_finite sx m e).
Proof.
  intros Hm He Hv Hc r. unfold r. pose proof top_pos as Ht.
  destruct m2 as [|m|m]; [| |lia].
  - split; [reflexivity|]. split; [discriminate|]. split; [|tauto].
    cbn [key]. rewrite <- Hv. rewrite Z.mul_0_l, Z.min_l by lia. symmetry. apply sgn_0.
  - destruct Hc as [Hc|Hc]; [discriminate|].
    destruct (canonical_facts (Z.pos m) e2 (Pos2Z.is_pos m) Hc) as (_ & _ & Hlt & Hn).
    change (emax - prec) with 971.
    destruct (Z.leb_spec e2 971) as [Hle|Hgt].
    + assert (Hb : bounded prec emax m e2 = true) by (apply bounded_iff; split; assumption).
      split; [exact Hb|]. split; [discriminate|]. split; [|eauto].
      cbn [key]. pose proof (valid_finite_key sx m e2 Hb). rewrite Hv in *.
      rewrite Z.min_l by lia. reflexivity.
    + split; [reflexivity|]. split; [discriminate|]. split; [|tauto].
      cbn [key]. f_equal. rewrite Z.min_r; [reflexivity|].
      rewrite <- Hv, top_split.
      assert (2 ^ 2046 <= 2 ^ (e2 + 1074)) by (apply Z.pow_le_mono_r; lia).
      specialize (Hn ltac:(lia)).
      change (2 ^ 53 * 2 ^ 2045) with (2 ^ 52 * 2 ^ 2046).
      apply Z.mul_le_mono_nonneg; try lia.
Qed.

(** Rounding an exact value [M * 2^e] that has digits enough. *)
Lemma binary_round_aux_exact sx M e :
  0 <= M -> e <= fexp64 (Zdigits2 M + e) ->
  let e1 := fexp64 (Zdigits2 M + e) in
  let r := binary_round_aux prec emax sx M e loc_Exact in
  valid64 r /\ r <> S754_nan /\
  key r = sgn sx (Z.min (rne M (e1 - e) * 2 ^ (e1 + 1074)) top) /\
  (r = S754_zero sx \/ r = S754_infinity sx \/ exists m e', r = S754_finite sx m e').
Proof.
  intros HM He e1 r. unfold r, binary_round_aux.
  destruct (shr_fexp_first M e loc_Exact HM He) as (mrs & E1 & Hm & Hr).
  rewrite E1, (Hr eq_refl). fold e1 in Hm |- *.
  destruct (first_stage_digits M e HM He) as (H0 & He1 & Hd & Hc). fold e1 in H0, He1, Hd, Hc.
  pose proof (rne_bounds M (e1 - e) ltac:(fold e1 in He; lia)) as Hk.
  destruct (shr_fexp_second _ _ e1 H0 Hk He1 Hd Hc) as (mrs2 & e2 & E2 & Hm2 & He2 & Hv & Hc2).
  rewrite E2. apply finish_round; assumption.
Qed.

(** Whatever the location, the rounded result is well formed and keeps the
    sign. *)
Lemma binary_round_aux_valid sx M e l :
  0 <= M -> e <= fexp64 (Zdigits2 M + e) ->
  let r := binary_round_aux prec emax sx M e l in
  valid64 r /\ r <> S754_nan /\
  (r = S754_zero sx \/ r = S754_infinity sx \/ exists m e', r = S754_finite sx m e').
Proof.
  intros HM He r. unfold r, binary_round_aux.
  destruct (shr_fexp_first M e l HM He) as (mrs & E1 & Hm & _).
  rewrite E1.
  destruct (first_stage_digits M e HM He) as (H0 & He1 & Hd & Hc).
  rewrite <- Hm in H0, Hd, Hc.
  pose proof (round_nearest_even_bounds (shr_m mrs) (loc_of_shr_record mrs)) as Hk.
  destruct (shr_fexp_second _ _ _ H0 Hk He1 Hd Hc) as (mrs2 & e2 & E2 & Hm2 & He2 & Hv & Hc2).
  rewrite E2.
  destruct (finish_round sx (shr_m mrs2) e2 _ Hm2 He2 eq_refl Hc2) as (A & B & _ & C).
  tauto.
Qed.

(** *** Rounding is monotone in the value *)

Lemma rne_nonneg M n : 0 <= M -> 0 <= n -> 0 <= rne M n.
Proof.
  intros HM Hn. pose proof (rne_bounds M n Hn).
  assert (0 <= M / 2 ^ n) by (apply Z.div_pos; [assumption | apply pow2_pos; assumption]).
  lia.
Qed.

Lemma fexp64_ge e : -1074 <= fexp64 e.
Proof. rewrite fexp64_eq. lia. Qed.

Lemma rkey_nonneg M e : 0 <= M -> e <= fexp64 (Zdigits2 M + e) -> 0 <= rkey M e.
Proof.
  intros HM He. unfold rkey. pose proof top_pos.
  pose proof (fexp64_ge (Zdigits2 M + e)).
  pose proof (rne_nonneg M (fexp64 (Zdigits2 M + e) - e) HM ltac:(lia)).
  pose proof (pow2_pos (fexp64 (Zdigits2 M + e) + 1074) ltac:(lia)).
  apply Z.min_glb; nia.
Qed.

Lemma rne_0_l n : rne 0 n = 0.
Proof.
  unfold rne. rewrite Zdiv_0_l, Zmod_0_l. simpl Z.odd. rewrite andb_false_r, orb_false_r.
  pose proof (Z.pow_nonneg 2 n ltac:(lia)).
  destruct (Z.ltb_spec (2 ^ n) (2 * 0)); [lia | reflexivity].
Qed.

Lemma rkey_0 e : rkey 0 e = 0.
Proof. unfold rkey. rewrite rne_0_l. pose proof top_pos. lia. Qed.

(** The key of the rounding depends on the value [M * 2^e] only. *)
Lemma rkey_scale M e k :
  0 <= M -> 0 <= k -> e <= fexp64 (Zdigits2 M + e) ->
  rkey (M * 2 ^ k) (e - k) = rkey M e.
Proof.
  intros HM Hk He.
  destruct (Z.eq_dec M 0) as [->|Hne]; [rewrite Z.mul_0_l, !rkey_0; reflexivity|].
  unfold rkey. rewrite Zdigits2_mul_pow2 by lia.
  replace (Zdigits2 M + k + (e - k)) with (Zdigits2 M + e) by lia.
  set (c := fexp64 (Zdigits2 M + e)) in *.
  replace (c - (e - k)) with ((c - e) + k) by lia.
  rewrite rne_scale by lia. reflexivity.
Qed.

(** Rounding is monotone in the value. *)
Lemma rkey_mono M1 e1 M2 e2 E :
  0 <= M1 -> 0 <= M2 -> E <= e1 -> E <= e2 ->
  e1 <= fexp64 (Zdigits2 M1 + e1) -> e2 <= fexp64 (Zdigits2 M2 + e2) ->
  M1 * 2 ^ (e1 - E) <= M2 * 2 ^ (e2 - E) ->
  rkey M1 e1 <= rkey M2 e2.
Proof.
  intros H1 H2 HE1 HE2 Hd1 Hd2 Hle.
  destruct (Z.eq_dec M1 0) as [->|N1].
  { rewrite rkey_0. apply rkey_nonneg; assumption. }
  assert (P1 : 0 < 2 ^ (e1 - E)) by (apply pow2_pos; lia).
  assert (P2 : 0 < 2 ^ (e2 - E)) by (apply pow2_pos; lia).
  assert (N2 : M2 <> 0) by nia.
  assert (HD : Zdigits2 M1 + e1 <= Zdigits2 M2 + e2).
  { assert (Zdigits2 (M1 * 2 ^ (e1 - E)) <= Zdigits2 (M2 * 2 ^ (e2 - E)))
      by (apply Zdigits2_le; nia).
    rewrite !Zdigits2_mul_pow2 in * by lia. lia. }
  unfold rkey.
  set (D1 := Zdigits2 M1 + e1) in *. set (D2 := Zdigits2 M2 + e2) in *.
  pose proof (fexp64_mono D1 D2 HD) as Hc.
  pose proof (fexp64_ge D1) as G1. pose proof (fexp64_ge D2) as G2.
  pose proof (fexp64_eq D1) as F1. pose proof (fexp64_eq D2) as F2.
  set (c1 := fexp64 D1) in *. set (c2 := fexp64 D2) in *.
  apply Z.min_le_compat_r.
  destruct (Z.eq_dec c1 c2) as [Ec|Nc].
  - rewrite <- Ec. apply Z.mul_le_mono_nonneg_r; [apply Z.pow_nonneg; lia|].
    rewrite <- (rne_scale M1 (c1 - e1) (e1 - E)) by lia.
    rewrite <- (rne_scale M2 (c1 - e2) (e2 - E)) by lia.
    replace (c1 - e1 + (e1 - E)) with (c1 - E) by lia.
    replace (c1 - e2 + (e2 - E)) with (c1 - E) by lia.
    apply rne_mono; [lia | assumption].
  - assert (Hc2 : c2 = D2 - 53) by lia.
    assert (HD12 : D1 < D2) by lia.
    apply Z.le_trans with (2 ^ (D2 - 1 + 1074)).
    + pose proof (rne_bounds M1 (c1 - e1) ltac:(lia)) as [_ Hup].
      assert (Hq : M1 / 2 ^ (c1 - e1) + 1 <= 2 ^ Z.max 0 (D1 - c1)).
      { pose proof (Zdigits2_div_pow2 M1 (c1 - e1) H1 ltac:(lia)) as Hdq.
        replace (Zdigits2 M1 - (c1 - e1)) with (D1 - c1) in Hdq by (unfold D1; lia).
        destruct (Z.eq_dec (M1 / 2 ^ (c1 - e1)) 0) as [E0|N0].
        - rewrite E0. pose proof (pow2_pos (Z.max 0 (D1 - c1)) ltac:(lia)). lia.
        - assert (0 < M1 / 2 ^ (c1 - e1)).
          { assert (0 <= M1 / 2 ^ (c1 - e1)) by (apply Z.div_pos; [lia | apply pow2_pos; lia]). lia. }
          pose proof (Zdigits2_bounds _ H) as [_ Hhi]. rewrite Hdq in Hhi. lia. }
      apply Z.le_trans with (2 ^ Z.max 0 (D1 - c1) * 2 ^ (c1 + 1074)).
      * apply Z.mul_le_mono_nonneg_r; [apply Z.pow_nonneg; lia | lia].
      * rewrite <- Z.pow_add_r by lia. apply Z.pow_le_mono_r; lia.
    + pose proof (rne_bounds M2 (c2 - e2) ltac:(lia)) as [Hlo _].
      assert (Hq : 2 ^ 52 <= M2 / 2 ^ (c2 - e2)).
      { pose proof (Zdigits2_div_pow2 M2 (c2 - e2) H2 ltac:(lia)) as Hdq.
        replace (Zdigits2 M2 - (c2 - e2)) with 53 in Hdq by (unfold D2 in *; lia).
        assert (0 < M2 / 2 ^ (c2 - e2)).
        { destruct (Z.eq_dec (M2 / 2 ^ (c2 - e2)) 0) as [E0|N0].
          - rewrite E0 in Hdq. simpl in Hdq. lia.
          - assert (0 <= M2 / 2 ^ (c2 - e2)) by (apply Z.div_pos; [lia | apply pow2_pos; lia]). lia. }
        pose proof (Zdigits2_bounds _ H) as [Hl _]. rewrite Hdq in Hl. exact Hl. }
      replace (D2 - 1 + 1074) with (52 + (c2 + 1074)) by lia.
      rewrite Z.pow_add_r by lia.
      apply Z.mul_le_mono_nonneg_r; [apply Z.pow_nonneg; lia | lia].
Qed.

(** *** Multiplication *)

Lemma Zdigits2_pow2 k : 0 <= k -> Zdigits2 (2 ^ k) = k + 1.
Proof.
  intros Hk. apply Zdigits2_unique; [apply pow2_pos; assumption|].
  replace (k + 1 - 1) with k by lia. split; [lia|].
  apply Z.pow_lt_mono_r; lia.
Qed.

Lemma Zdigits2_mul a b : 0 < a -> 0 < b -> Zdigits2 a + Zdigits2 b - 1 <= Zdigits2 (a * b).
Proof.
  intros Ha Hb.
  pose proof (Zdigits2_bounds a Ha) as [La _]. pose proof (Zdigits2_bounds b Hb) as [Lb _].
  assert (Da : 1 <= Zdigits2 a) by (rewrite Zdigits2_log2 by assumption; pose proof (Z.log2_nonneg a); lia).
  assert (Db : 1 <= Zdigits2 b) by (rewrite Zdigits2_log2 by assumption; pose proof (Z.log2_nonneg b); lia).
  assert (Hp : 2 ^ (Zdigits2 a - 1 + (Zdigits2 b - 1)) <= a * b).
  { rewrite Z.pow_add_r by lia.
    pose proof (pow2_pos (Zdigits2 a - 1) ltac:(lia)). pose proof (pow2_pos (Zdigits2 b - 1) ltac:(lia)).
    nia. }
  pose proof (Zdigits2_le _ _ (conj (Z.pow_nonneg 2 _ ltac:(lia)) Hp)) as Hd.
  rewrite Zdigits2_pow2 in Hd by lia. lia.
Qed.

Lemma Zdigits2_pos m : 0 < m -> 1 <= Zdigits2 m.
Proof. intros Hm. rewrite Zdigits2_log2 by assumption. pose proof (Z.log2_nonneg m). lia. Qed.

(** The exact product of two well-formed numbers has digits enough to be
    rounded by shifting right. *)
Lemma mul_enough_digits mx ex my ey :
  bounded prec emax mx ex = true -> bounded prec emax my ey = true ->
  ex + ey <= fexp64 (Zdigits2 (Z.pos mx * Z.pos my) + (ex + ey)).
Proof.
  intros Hx Hy. apply bounded_iff in Hx as [Hx _]. apply bounded_iff in Hy as [Hy _].
  pose proof (Zdigits2_mul (Z.pos mx) (Z.pos my) (Pos2Z.is_pos mx) (Pos2Z.is_pos my)) as Hd.
  pose proof (Zdigits2_pos (Z.pos mx) (Pos2Z.is_pos mx)).
  pose proof (Zdigits2_pos (Z.pos my) (Pos2Z.is_pos my)).
  rewrite fexp64_eq in *. lia.
Qed.

Lemma SFmul_finite_key sx mx ex sy my ey :
  bounded prec emax mx ex = true -> bounded prec emax my ey = true ->
  let r := SFmul prec emax (S754_finite sx mx ex) (S754_finite sy my ey) in
  valid64 r /\ r <> S754_nan /\
  key r = sgn (xorb sx sy) (rkey (Z.pos mx * Z.pos my) (ex + ey)) /\
  shape (xorb sx sy) r.
Proof.
  intros Hx Hy r. unfold r. cbn [SFmul].
  change (Z.pos (mx * my)) with (Z.pos mx * Z.pos my).
  apply binary_round_aux_exact; [lia|]. apply mul_enough_digits; assumption.
Qed.

Lemma SFleb_key x y :
  valid64 x -> valid64 y -> x <> S754_nan -> y <> S754_nan ->
  SFleb x y = true <-> key x <= key y.
Proof.
  intros Vx Vy Nx Ny. unfold SFleb. rewrite (SFcompare_key x y Vx Vy Nx Ny).
  destruct (Z.compare_spec (key x) (key y)); split; intros; try lia; try reflexivity; discriminate.
Qed.

Lemma SFltb_key x y :
  valid64 x -> valid64 y -> x <> S754_nan -> y <> S754_nan ->
  SFltb x y = true <-> key x < key y.
Proof.
  intros Vx Vy Nx Ny. unfold SFltb. rewrite (SFcompare_key x y Vx Vy Nx Ny).
  destruct (Z.compare_spec (key x) (key y)); split; intros; try lia; try reflexivity; discriminate.
Qed.

Lemma SFleb_zero_shape r : shape false r -> SFleb (S754_zero false) r = true.
Proof. intros [-> |[-> |(m & e & ->)]]; reflexivity. Qed.

Lemma SFleb_inf x : x <> S754_nan -> SFleb x (S754_infinity false) = true.
Proof. destruct x as [[]|[]| |[] m e]; intros; try reflexivity; congruence. Qed.

(** A larger positive factor of a non-negative number gives a product that
    is not smaller. *)
Lemma SFmul_mono t1 t2 s :
  valid64 t1 -> valid64 t2 -> valid64 s ->
  SFltb (S754_zero false) t1 = true -> SFltb t1 t2 = true ->
  SFleb (S754_zero false) s = true ->
  SFleb (S754_zero false) (SFmul prec emax t1 s) = true /\
  valid64 (SFmul prec emax t1 s) /\
  (SFmul prec emax t2 s = S754_nan \/
   (valid64 (SFmul prec emax t2 s) /\
    SFleb (SFmul prec emax t1 s) (SFmul prec emax t2 s) = true)).
Proof.
  intros V1 V2 Vs H01 H12 H0s.
  assert (N1 : t1 <> S754_nan) by (intros ->; discriminate).
  assert (N2 : t2 <> S754_nan) by (intros ->; destruct t1 as [| | |]; discriminate).
  pose proof top_pos as Ht.
  apply (SFltb_key _ _ V1 V2 N1 N2) in H12.
  assert (V0 : valid64 (S754_zero false)) by reflexivity.
  assert (N0 : S754_zero false <> S754_nan) by discriminate.
  apply (SFltb_key _ _ V0 V1 N0 N1) in H01. cbn [key] in H01.
  destruct t1 as [s1|s1| |s1 m1 e1]; cbn [key] in *; try lia; try congruence.
  { destruct s1; cbn [sgn] in *; [lia|].
    destruct t2 as [s2|s2| |s2 m2 e2]; cbn [key] in *; try lia; try congruence.
    - destruct s2; cbn [sgn] in *; lia.
    - pose proof (valid_finite_key s2 m2 e2 V2). destruct s2; cbn [sgn] in *; lia. }
  pose proof (valid_finite_key s1 m1 e1 V1) as K1.
  destruct s1; cbn [sgn] in *; [lia|].
  destruct s as [ss|ss| |ss ms es]; try discriminate.
  - destruct t2 as [s2|s2| |s2 m2 e2]; cbn [key] in *; try lia; try congruence.
    + destruct s2; cbn [sgn] in *; [lia|]. split; [destruct ss; reflexivity|].
      split; [reflexivity|]. left. reflexivity.
    + split; [destruct ss; reflexivity|]. split; [reflexivity|]. right.
      split; [reflexivity|]. destruct ss, s2; reflexivity.
  - destruct ss; [discriminate|].
    destruct t2 as [s2|s2| |s2 m2 e2]; cbn [key] in *; try lia; try congruence.
    + destruct s2; cbn [sgn] in *; [lia|]. split; [reflexivity|]. split; [reflexivity|].
      right. split; reflexivity.
    + pose proof (valid_finite_key s2 m2 e2 V2) as K2.
      destruct s2; cbn [sgn] in *; [lia|]. split; [reflexivity|]. split; [reflexivity|].
      right. split; reflexivity.
  - destruct ss; [discriminate|].
    destruct (SFmul_finite_key false m1 e1 false ms es V1 Vs) as (Va & Na & Ka & Sa).
    split; [apply SFleb_zero_shape; exact Sa|]. split; [exact Va|]. right.
    destruct t2 as [s2|s2| |s2 m2 e2]; cbn [key] in *; try lia; try congruence.
    + destruct s2; cbn [sgn] in *; [lia|]. split; [reflexivity|].
      apply SFleb_inf. exact Na.
    + pose proof (valid_finite_key s2 m2 e2 V2) as K2.
      destruct s2; cbn [sgn] in *; [lia|].
      destruct (SFmul_finite_key false m2 e2 false ms es V2 Vs) as (Vb & Nb & Kb & Sb).
      split; [exact Vb|].
      apply (SFleb_key _ _ Va Vb Na Nb). rewrite Ka, Kb. cbn [xorb sgn].
      pose proof (valid_finite_key false ms es Vs) as Ks.
      pose proof (mul_enough_digits m1 e1 ms es V1 Vs) as D1.
      pose proof (mul_enough_digits m2 e2 ms es V2 Vs) as D2.
      apply bounded_iff in V1 as [C1 _]. apply bounded_iff in V2 as [C2 _].
      apply bounded_iff in Vs as [Cs _].
      destruct (canonical_facts _ _ (Pos2Z.is_pos m1) C1) as (E1 & _).
      destruct (canonical_facts _ _ (Pos2Z.is_pos m2) C2) as (E2 & _).
      destruct (canonical_facts _ _ (Pos2Z.is_pos ms) Cs) as (Es & _).
      apply (rkey_mono _ _ _ _ (-2148)); try lia; try assumption.
      assert (Hp : forall m e, -1074 <= e ->
                m * Z.pos ms * 2 ^ (e + es - -2148) =
                m * 2 ^ (e + 1074) * (Z.pos ms * 2 ^ (es + 1074))).
      { intros m e He. replace (e + es - -2148) with ((e + 1074) + (es + 1074)) by lia.
        rewrite (Z.pow_add_r 2 (e + 1074) (es + 1074)) by lia. ring. }
      rewrite !Hp by lia. apply Z.mul_le_mono_nonneg_r; lia.
Qed.

(** *** Addition *)

Lemma enough_digits_min V : -1074 <= fexp64 (Zdigits2 V + -1074).
Proof. apply fexp64_ge. Qed.

Lemma Rv_nonneg V : 0 <= V -> 0 <= Rv V.
Proof. intros. apply rkey_nonneg; [assumption | apply enough_digits_min]. Qed.

Lemma Rv_0 : Rv 0 = 0.
Proof. apply rkey_0. Qed.

Lemma Rv_mono V1 V2 : 0 <= V1 -> V1 <= V2 -> Rv V1 <= Rv V2.
Proof.
  intros H1 H12. apply (rkey_mono _ _ _ _ (-1074)); try lia; try apply enough_digits_min.
Qed.

Lemma Rs_mono V1 V2 : V1 <= V2 -> Rs V1 <= Rs V2.
Proof.
  intros H. unfold Rs.
  destruct (Z.ltb_spec V1 0), (Z.ltb_spec V2 0).
  - pose proof (Rv_mono (- V2) (- V1) ltac:(lia) ltac:(lia)). lia.
  - pose proof (Rv_nonneg (- V1) ltac:(lia)). pose proof (Rv_nonneg V2 ltac:(lia)). lia.
  - lia.
  - apply Rv_mono; lia.
Qed.

(** A pair with digits enough rounds like its value. *)
Lemma rkey_Rv M e :
  0 <= M -> -1074 <= e -> e <= fexp64 (Zdigits2 M + e) ->
  rkey M e = Rv (M * 2 ^ (e + 1074)).
Proof.
  intros HM He Hd. unfold Rv.
  rewrite <- (rkey_scale M e (e + 1074)) by lia. f_equal. lia.
Qed.

Lemma Rv_valid m e :
  bounded prec emax m e = true -> Rv (Z.pos m * 2 ^ (e + 1074)) = Z.pos m * 2 ^ (e + 1074).
Proof.
  intros Hb. pose proof (valid_finite_key false m e Hb) as K.
  apply bounded_iff in Hb as [Hc _].
  destruct (canonical_facts _ _ (Pos2Z.is_pos m) Hc) as (He & _).
  rewrite <- rkey_Rv by lia. unfold rkey. rewrite Hc, Z.sub_diag, rne_0. lia.
Qed.

Lemma pos_iter_xO m d : Z.pos (Pos.iter xO m d) = Z.pos m * 2 ^ Z.pos d.
Proof.
  induction d as [|d IH] using Pos.peano_ind.
  - simpl. lia.
  - rewrite Pos.iter_succ, Pos2Z.inj_xO, IH, Pos2Z.inj_succ, Z.pow_succ_r by lia. ring.
Qed.

Lemma shl_align_spec mx ex ez :
  let '(m', e') := shl_align mx ex ez in
  e' = Z.min ex ez /\ Z.pos m' = Z.pos mx * 2 ^ (ex - e').
Proof.
  unfold shl_align. destruct (ez - ex) as [|d|d] eqn:E.
  - assert (ez = ex) as -> by lia. rewrite Z.min_id, Z.sub_diag. simpl. lia.
  - rewrite Z.min_l by lia. rewrite Z.sub_diag. simpl. lia.
  - rewrite Z.min_r by lia. split; [reflexivity|]. rewrite pos_iter_xO. f_equal. f_equal. lia.
Qed.

Lemma binary_round_key sx mx ex :
  -1074 <= ex ->
  let r := binary_round prec emax sx mx ex in
  valid64 r /\ r <> S754_nan /\
  key r = sgn sx (Rv (Z.pos mx * 2 ^ (ex + 1074))) /\ shape sx r.
Proof.
  intros He r. unfold r, binary_round.
  pose proof (shl_align_spec mx ex (fexp64 (Z.pos (digits2_pos mx) + ex))) as Hs.
  destruct (shl_align mx ex _) as [mz ez]. destruct Hs as [Hez Hmz].
  change (Z.pos (digits2_pos mx)) with (Zdigits2 (Z.pos mx)) in Hez.
  pose proof (fexp64_ge (Zdigits2 (Z.pos mx) + ex)) as Hf.
  assert (Hd : Zdigits2 (Z.pos mz) + ez = Zdigits2 (Z.pos mx) + ex).
  { rewrite Hmz, Zdigits2_mul_pow2 by lia. lia. }
  assert (Hen : ez <= fexp64 (Zdigits2 (Z.pos mz) + ez)) by (rewrite Hd; lia).
  destruct (binary_round_aux_exact sx (Z.pos mz) ez ltac:(lia) Hen) as (V & N & K & S).
  split; [exact V|]. split; [exact N|]. split; [|exact S].
  rewrite K. f_equal.
  change (Z.min (rne (Z.pos mz) (fexp64 (Zdigits2 (Z.pos mz) + ez) - ez) *
                 2 ^ (fexp64 (Zdigits2 (Z.pos mz) + ez) + 1074)) top)
    with (rkey (Z.pos mz) ez).
  rewrite rkey_Rv by lia. f_equal. rewrite Hmz, <- Z.mul_assoc, <- Z.pow_add_r by lia.
  f_equal. f_equal. lia.
Qed.

Lemma binary_normalize_key S e :
  -1074 <= e ->
  let r := binary_normalize prec emax S e false in
  valid64 r /\ r <> S754_nan /\ key r = Rs (S * 2 ^ (e + 1074)).
Proof.
  intros He r. unfold r, binary_normalize, Rs.
  pose proof (pow2_pos (e + 1074) ltac:(lia)) as Hp.
  destruct S as [|m|m].
  - split; [reflexivity|]. split; [discriminate|]. rewrite Z.mul_0_l. simpl. symmetry. apply Rv_0.
  - destruct (binary_round_key false m e He) as (V & N & K & _).
    split; [exact V|]. split; [exact N|]. rewrite K.
    destruct (Z.ltb_spec (Z.pos m * 2 ^ (e + 1074)) 0); [nia | reflexivity].
  - destruct (binary_round_key true m e He) as (V & N & K & _).
    split; [exact V|]. split; [exact N|]. rewrite K.
    destruct (Z.ltb_spec (Z.neg m * 2 ^ (e + 1074)) 0); [|nia].
    cbn [sgn]. f_equal. f_equal. lia.
Qed.

Lemma Rs_valid x : valid64 x -> is_finite x -> Rs (key x) = key x.
Proof.
  intros V F. destruct x as [s|s| |s m e]; try contradiction; cbn [key].
  - unfold Rs. simpl. apply Rv_0.
  - pose proof (valid_finite_key s m e V) as K. pose proof (Rv_valid m e V) as R.
    unfold Rs. destruct s; cbn [sgn].
    + destruct (Z.ltb_spec (- (Z.pos m * 2 ^ (e + 1074))) 0); [|lia].
      rewrite Z.opp_involutive, R. reflexivity.
    + destruct (Z.ltb_spec (Z.pos m * 2 ^ (e + 1074)) 0); [lia|]. exact R.
Qed.

Lemma cond_Zopp_sgn s v : cond_Zopp s v = sgn s v.
Proof. reflexivity. Qed.

Lemma sgn_mul s v w : sgn s v * w = sgn s (v * w).
Proof. destruct s; cbn [sgn]; ring. Qed.

(** The sum of two finite numbers is the rounding of the exact sum. *)
Lemma SFadd_finite_key sx mx ex sy my ey :
  bounded prec emax mx ex = true -> bounded prec emax my ey = true ->
  let x := S754_finite sx mx ex in
  let y := S754_finite sy my ey in
  valid64 (SFadd prec emax x y) /\ SFadd prec emax x y <> S754_nan /\
  key (SFadd prec emax x y) = Rs (key x + key y).
Proof.
  intros Hx Hy x y. unfold x, y. cbn [SFadd key].
  apply bounded_iff in Hx as [Cx _]. apply bounded_iff in Hy as [Cy _].
  destruct (canonical_facts _ _ (Pos2Z.is_pos mx) Cx) as (Ex & _).
  destruct (canonical_facts _ _ (Pos2Z.is_pos my) Cy) as (Ey & _).
  pose proof (shl_align_spec mx ex (Z.min ex ey)) as Sx.
  pose proof (shl_align_spec my ey (Z.min ex ey)) as Sy.
  destruct (shl_align mx ex (Z.min ex ey)) as [mx' ex'].
  destruct (shl_align my ey (Z.min ex ey)) as [my' ey'].
  destruct Sx as [Ex' Mx]. destruct Sy as [Ey' My]. cbn [fst].
  assert (Hex : ex' = Z.min ex ey) by lia. assert (Hey : ey' = Z.min ex ey) by lia.
  set (ez := Z.min ex ey) in *.
  destruct (binary_normalize_key (cond_Zopp sx (Z.pos mx') + cond_Zopp sy (Z.pos my')) ez
              ltac:(lia)) as (V & N & K).
  split; [exact V|]. split; [exact N|]. rewrite K. f_equal.
  rewrite !cond_Zopp_sgn, Z.mul_add_distr_r, !sgn_mul, Mx, My, Hex, Hey.
  rewrite <- !Z.mul_assoc, <- !Z.pow_add_r by lia.
  replace (ex - ez + (ez + 1074)) with (ex + 1074) by lia.
  replace (ey - ez + (ez + 1074)) with (ey + 1074) by lia.
  reflexivity.
Qed.

Lemma SFadd_key x y :
  valid64 x -> valid64 y -> is_finite x -> is_finite y ->
  valid64 (SFadd prec emax x y) /\ SFadd prec emax x y <> S754_nan /\
  key (SFadd prec emax x y) = Rs (key x + key y).
Proof.
  intros Vx Vy Fx Fy.
  destruct x as [sx|sx| |sx mx ex]; try contradiction;
    destruct y as [sy|sy| |sy my ey]; try contradiction.
  - split; [destruct sx, sy; reflexivity|]. split; [destruct sx, sy; discriminate|].
    destruct sx, sy; symmetry; apply Rv_0.
  - cbn [SFadd]. split; [exact Vy|]. split; [discriminate|].
    change (key (S754_zero sx)) with 0. rewrite Z.add_0_l. symmetry. apply Rs_valid; assumption.
  - cbn [SFadd]. split; [exact Vx|]. split; [discriminate|].
    change (key (S754_zero sy)) with 0. rewrite Z.add_0_r. symmetry. apply Rs_valid; assumption.
  - apply SFadd_finite_key; assumption.
Qed.

Lemma key_finite_lt_top x : valid64 x -> is_finite x -> - top < key x < top.
Proof.
  intros V F. pose proof top_pos. destruct x as [s|s| |s m e]; try contradiction; cbn [key].
  - lia.
  - pose proof (valid_finite_key s m e V). destruct s; cbn [sgn]; lia.
Qed.

Lemma nonneg_cases a :
  a <> S754_nan -> 0 <= key a -> is_finite a \/ a = S754_infinity false.
Proof.
  pose proof top_pos. destruct a as [s|s| |s m e]; cbn [key is_finite]; intros N K; try tauto.
  destruct s; cbn [sgn] in K; [lia | tauto].
Qed.

(** Adding a larger non-negative term gives a sum that is not smaller. *)
Lemma SFadd_mono c a b :
  valid64 c -> valid64 a -> valid64 b ->
  SFleb (S754_zero false) a = true -> SFleb a b = true ->
  SFadd prec emax c b = S754_nan \/
  SFleb (SFadd prec emax c a) (SFadd prec emax c b) = true.
Proof.
  intros Vc Va Vb H0a Hab.
  assert (Na : a <> S754_nan) by (intros ->; discriminate).
  assert (Nb : b <> S754_nan) by (intros ->; destruct a as [| | |]; discriminate).
  assert (V0 : valid64 (S754_zero false)) by reflexivity.
  assert (N0 : S754_zero false <> S754_nan) by discriminate.
  apply (SFleb_key _ _ V0 Va N0 Na) in H0a. cbn [key] in H0a.
  apply (SFleb_key _ _ Va Vb Na Nb) in Hab.
  pose proof top_pos as Ht.
  destruct (nonneg_cases a Na H0a) as [Fa | ->];
    destruct (nonneg_cases b Nb ltac:(lia)) as [Fb | ->].
  - destruct c as [sc|sc| |sc mc ec].
    + destruct (SFadd_key _ a Vc Va I Fa) as (V1 & N1 & K1).
      destruct (SFadd_key _ b Vc Vb I Fb) as (V2 & N2 & K2).
      right. apply (SFleb_key _ _ V1 V2 N1 N2). rewrite K1, K2. apply Rs_mono. lia.
    + right. destruct a as [| | |]; try contradiction; destruct b as [| | |]; try contradiction;
        destruct sc; reflexivity.
    + left. reflexivity.
    + destruct (SFadd_key _ a Vc Va I Fa) as (V1 & N1 & K1).
      destruct (SFadd_key _ b Vc Vb I Fb) as (V2 & N2 & K2).
      right. apply (SFleb_key _ _ V1 V2 N1 N2). rewrite K1, K2. apply Rs_mono. lia.
  - destruct c as [sc|sc| |sc mc ec].
    + right. cbn [SFadd]. apply SFleb_inf.
      destruct (SFadd_key (S754_zero sc) a Vc Va I Fa) as (_ & N1 & _). exact N1.
    + destruct sc; [left; reflexivity|]. right.
      destruct a as [| | |]; try contradiction; reflexivity.
    + left. reflexivity.
    + right. cbn [SFadd]. apply SFleb_inf.
      destruct (SFadd_key (S754_finite sc mc ec) a Vc Va I Fa) as (_ & N1 & _). exact N1.
  -     pose proof (key_finite_lt_top b Vb Fb). cbn [key sgn] in Hab. lia.
  - destruct c as [sc|sc| |sc mc ec]; try (right; reflexivity); try (left; reflexivity).
    destruct sc; [left | right]; reflexivity.
Qed.

(** *** Division and square root

    Both scale the operand so that the integer quotient, or root, has digits
    enough; the rounded result is then well formed whatever the operands. *)
Lemma shift_mantissa m s :
  0 < m -> 0 <= s ->
  match s with
  | Z.pos _ => Z.shiftl m s
  | 0 => m
  | Z.neg _ => 0
  end = m * 2 ^ s.
Proof.
  intros Hm Hs. destruct s as [|p|p]; [simpl; lia | | lia].
  apply Z.shiftl_mul_pow2. lia.
Qed.

Lemma Zdigits2_ge_pow2 q k : 0 <= k -> 2 ^ k <= q -> k + 1 <= Zdigits2 q.
Proof.
  intros Hk Hq. rewrite <- (Zdigits2_pow2 k Hk). apply Zdigits2_le.
  split; [apply Z.pow_nonneg; lia | assumption].
Qed.

Lemma sqrt_enough_digits m e :
  0 < m ->
  let '(q, e', l) := SFsqrt_core_binary prec emax m e in
  0 <= q /\ e' <= fexp64 (Zdigits2 q + e').
Proof.
  intros Hm. unfold SFsqrt_core_binary.
  set (d := Zdigits2 m).
  set (e' := Z.min (fexp64 (Z.div2 (d + e + 1))) (Z.div2 e)).
  set (s := e - 2 * e').
  assert (Hs : 0 <= s).
  { unfold s. assert (e' <= Z.div2 e) by (unfold e'; lia).
    rewrite Z.div2_div in *. pose proof (Z.mul_div_le e 2 ltac:(lia)). lia. }
  rewrite (shift_mantissa m s Hm Hs).
  pose proof (Z.sqrtrem_sqrt (m * 2 ^ s)) as Hq.
  destruct (Z.sqrtrem (m * 2 ^ s)) as [q r]. cbn [fst] in Hq. subst q.
  assert (Hm' : 0 < m * 2 ^ s) by (pose proof (pow2_pos s Hs); nia).
  split; [apply Z.sqrt_nonneg|].
  assert (Hd' : Zdigits2 (m * 2 ^ s) = d + s) by (apply Zdigits2_mul_pow2; assumption).
  pose proof (Zdigits2_bounds _ Hm') as [Hlo _]. rewrite Hd' in Hlo.
  pose proof (Zdigits2_pos m Hm) as Hd1. fold d in Hd1.
  set (k := (d + s - 1) / 2).
  assert (Hk : 0 <= k) by (apply Z.div_pos; lia).
  assert (H2k : 2 * k <= d + s - 1) by (apply Z.mul_div_le; lia).
  assert (Hsq : 2 ^ k <= Z.sqrt (m * 2 ^ s)).
  { apply Z.sqrt_le_square; [lia | apply Z.pow_nonneg; lia|].
    rewrite <- Z.pow_add_r by lia. eapply Z.le_trans; [|exact Hlo].
    apply Z.pow_le_mono_r; lia. }
  pose proof (Zdigits2_ge_pow2 _ k Hk Hsq) as Hdq.
  assert (Hgoal : Z.div2 (d + e + 1) <= Zdigits2 (Z.sqrt (m * 2 ^ s)) + e').
  { rewrite Z.div2_div. unfold k in Hdq.
    replace (d + e + 1) with ((d + s - 1) + (e' + 1) * 2) by (unfold s; lia).
    rewrite Z.div_add by lia. lia. }
  pose proof (fexp64_mono _ _ Hgoal). unfold e' at 1. lia.
Qed.

(** Every square root is well formed. *)
Lemma SFsqrt_valid x : valid64 (SFsqrt prec emax x).
Proof.
  destruct x as [s|[]| |[] mx ex]; try reflexivity.
  cbn [SFsqrt].
  pose proof (sqrt_enough_digits (Z.pos mx) ex (Pos2Z.is_pos mx)) as H.
  destruct (SFsqrt_core_binary prec emax (Z.pos mx) ex) as [[q e'] l].
  destruct H as [Hq He]. apply binary_round_aux_valid; assumption.
Qed.

Lemma div_enough_digits m1 e1 m2 e2 :
  0 < m1 -> 0 < m2 ->
  let '(q, e', l) := SFdiv_core_binary prec emax m1 e1 m2 e2 in
  0 <= q /\ e' <= fexp64 (Zdigits2 q + e').
Proof.
  intros H1 H2. unfold SFdiv_core_binary.
  set (d1 := Zdigits2 m1). set (d2 := Zdigits2 m2).
  set (e' := Z.min (fexp64 (d1 + e1 - (d2 + e2))) (e1 - e2)).
  set (s := e1 - e2 - e').
  assert (Hs : 0 <= s) by (unfold s, e'; lia).
  rewrite (shift_mantissa m1 s H1 Hs).
  assert (Hq : fst (Z.div_eucl (m1 * 2 ^ s) m2) = m1 * 2 ^ s / m2) by reflexivity.
  destruct (Z.div_eucl (m1 * 2 ^ s) m2) as [q r]. cbn [fst] in Hq. subst q.
  assert (Hm' : 0 < m1 * 2 ^ s) by (pose proof (pow2_pos s Hs); nia).
  split; [apply Z.div_pos; lia|].
  assert (Hd' : Zdigits2 (m1 * 2 ^ s) = d1 + s) by (apply Zdigits2_mul_pow2; assumption).
  pose proof (Zdigits2_bounds _ Hm') as [Hlo _]. rewrite Hd' in Hlo.
  pose proof (Zdigits2_bounds _ H2) as [_ Hhi]. fold d2 in Hhi.
  pose proof (Zdigits2_pos m2 H2) as Hd2. fold d2 in Hd2.
  assert (Hdq : d1 + s - d2 <= Zdigits2 (m1 * 2 ^ s / m2)).
  { destruct (Z.le_gt_cases (d1 + s - d2) 0) as [Hle|Hgt].
    - pose proof (Zdigits2_nonneg (m1 * 2 ^ s / m2)). lia.
    - replace (d1 + s - d2) with ((d1 + s - d2 - 1) + 1) by lia.
      apply Zdigits2_ge_pow2; [lia|].
      apply Z.div_le_lower_bound; [lia|].
      apply Z.le_trans with (2 ^ d2 * 2 ^ (d1 + s - d2 - 1)).
      + apply Z.mul_le_mono_nonneg_r; [apply Z.pow_nonneg; lia | lia].
      + rewrite <- Z.pow_add_r by lia.
        replace (d2 + (d1 + s - d2 - 1)) with (d1 + s - 1) by lia. exact Hlo. }
  assert (Es : s = e1 - e2 - e') by reflexivity.
  assert (Hgoal : d1 + e1 - (d2 + e2) <= Zdigits2 (m1 * 2 ^ s / m2) + e') by lia.
  pose proof (fexp64_mono _ _ Hgoal). unfold e' at 1. lia.
Qed.

(** Every quotient is well formed. *)
Lemma SFdiv_valid x y : valid64 (SFdiv prec emax x y).
Proof.
  destruct x as [sx|sx| |sx mx ex], y as [sy|sy| |sy my ey]; try reflexivity.
  cbn [SFdiv].
  pose proof (div_enough_digits (Z.pos mx) ex (Z.pos my) ey (Pos2Z.is_pos mx) (Pos2Z.is_pos my)) as H.
  destruct (SFdiv_core_binary prec emax (Z.pos mx) ex (Z.pos my) ey) as [[q e'] l].
  destruct H as [Hq He]. apply binary_round_aux_valid; assumption.
Qed.

(** *** NaN and the order *)

Lemma SFcompare_refl (x : float64) : x <> S754_nan -> SFcompare x x = Some Eq.
Proof.
  destruct x as [[]|[]| |[] mx ex]; simpl; intros Hx; try congruence;
    rewrite Z.compare_refl, Pos.compare_cont_refl; reflexivity.
Qed.

Lemma is_nan_binary64 (x : float64) : is_nan x <-> x = S754_nan.
Proof.
  unfold is_nan; simpl; unfold SFeqb. split.
  - intros Hx. destruct x as [s|s| |s mx ex]; [| |reflexivity|];
      rewrite SFcompare_refl in Hx; discriminate.
  - intros ->. reflexivity.
Qed.

(** The shape of a rounded result: it keeps the sign it was given. *)
Lemma binary_round_aux_shape sx mx ex lx :
  let r := binary_round_aux prec emax sx mx ex lx in
  r = S754_zero sx \/ r = S754_infinity sx \/ r = S754_nan \/
  exists mz ez, r = S754_finite sx mz ez.
Proof.
  unfold binary_round_aux.
  destruct (shr_fexp prec emax mx ex lx) as [mrs' e'].
  destruct (shr_fexp prec emax _ e' loc_Exact) as [mrs'' e''].
  destruct (shr_m mrs'') as [|mz|mz]; simpl; [tauto| |tauto].
  destruct (Z.leb e'' (emax - prec)); [|tauto].
  right; right; right. eauto.
Qed.

Lemma SFsqrt_sign (x : float64) :
  SFsqrt prec emax x = S754_nan \/ SFleb (S754_zero false) (SFsqrt prec emax x) = true.
Proof.
  destruct x as [[]|[]| |[] mx ex]; simpl; try tauto.
  destruct (SFsqrt_core_binary prec emax (Z.pos mx) ex) as [[mz ez] lz].
  destruct (binary_round_aux_shape false mz ez lz) as [-> |[-> |[-> |(mz' & ez' & ->)]]];
    tauto.
Qed.

Ltac compare_cases :=
  repeat match goal with
    | Hc : context [Z.compare ?a ?b] |- _ => destruct (Z.compare_spec a b); simpl in Hc
    | |- context [Z.compare ?a ?b] => destruct (Z.compare_spec a b); simpl
    | Hc : context [Pos.compare_cont Eq ?a ?b] |- _ =>
        change (Pos.compare_cont Eq a b) with (Pos.compare a b) in Hc
    | |- context [Pos.compare_cont Eq ?a ?b] =>
        change (Pos.compare_cont Eq a b) with (Pos.compare a b)
    | Hc : context [Pos.compare ?a ?b] |- _ => destruct (Pos.compare_spec a b); simpl in Hc
    | |- context [Pos.compare ?a ?b] => destruct (Pos.compare_spec a b); simpl
    end.

Lemma SFltb_asym (x y : float64) : SFltb x y = true -> SFltb y x = false.
Proof.
  unfold SFltb.
  destruct x as [[]|[]| |[] mx ex], y as [[]|[]| |[] my ey]; simpl;
    try congruence; intros Hxy; compare_cases; subst;
    try reflexivity; try discriminate; lia.
Qed.

Lemma SFleb_SFltb_trans (x y z : float64) :
  SFleb x y = true -> SFltb y z = true -> SFltb x z = true.
Proof.
  unfold SFleb, SFltb.
  destruct x as [[]|[]| |[] mx ex], y as [[]|[]| |[] my ey], z as [[]|[]| |[] mz ez];
    simpl; try congruence; intros Hxy Hyz; compare_cases; subst;
    try reflexivity; try discriminate; lia.
Qed.

#[global] Instance binary64_laws : FloatLaws float64.
Proof.
  split; try setoid_rewrite is_nan_binary64; simpl.
  - reflexivity.
  - intros x y ->. reflexivity.
  - intros x y ->. destruct x as [| | |]; reflexivity.
  - intros x y ->. reflexivity.
  - intros x y ->. destruct x as [| | |]; reflexivity.
  - intros x y ->. reflexivity.
  - intros x y ->. destruct x as [| | |]; reflexivity.
  - intros x y ->. reflexivity.
  - intros x ->. reflexivity.
  - intros x y ->. reflexivity.
  - intros x y ->. unfold SFltb. destruct x as [| | |]; reflexivity.
  - apply SFltb_asym.
  - apply SFleb_SFltb_trans.
  - apply SFsqrt_sign.
Qed.

#[global] Instance binary64_monotone : MonotoneRounding float64.
Proof.
  split; try setoid_rewrite is_nan_binary64.
  - apply SFdiv_valid.
  - apply SFsqrt_valid.
  - apply SFmul_mono.
  - apply SFadd_mono.
Qed.
End Binary64Facts.

(** ** Facts about the numpy primitives *)

Section NumpyFacts.
Context {F : Type} `{FloatArith F}.

Lemma where_gt_from_spec (a : list F) (t : F) (i j : nat) :
  j ∈ where_gt_from i a t <->
  exists k x, j = i + k /\ a !! k = Some x /\ fgtb x t = true.
Proof.
  revert i. induction a as [|x r IH]; intros i; simpl.
  - split; [intros Hj; inversion Hj | intros (k & x & _ & Hk & _); discriminate].
  - assert (Hr : j ∈ where_gt_from (S i) r t <->
                 exists k y, j = i + S k /\ r !! k = Some y /\ fgtb y t = true).
    { rewrite IH. split; intros (k & y & Hj & Hk); exists k, y; split; (lia || tauto). }
    destruct (fgtb x t) eqn:Hx.
    + rewrite elem_of_cons, Hr. split.
      * intros [-> | (k & y & -> & Hk)].
        -- exists 0, x. split; [lia|]. split; [reflexivity | assumption].
        -- exists (S k), y. split; [reflexivity | assumption].
      * intros ([|k] & y & -> & Hk & Hy); [left; lia|].
        right. exists k, y. split; [reflexivity | split; assumption].
    + rewrite Hr. split.
      * intros (k & y & -> & Hk). exists (S k), y. split; [reflexivity | assumption].
      * intros ([|k] & y & -> & Hk & Hy).
        -- simpl in Hk. injection Hk as ->. congruence.
        -- exists k, y. split; [reflexivity | split; assumption].
Qed.

Lemma np_where_gt_spec (a : list F) (t : F) (j : nat) :
  j ∈ np_where_gt a t <-> exists x, a !! j = Some x /\ fgtb x t = true.
Proof.
  unfold np_where_gt. rewrite where_gt_from_spec. split.
  - intros (k & x & -> & Hk). exists x. exact Hk.
  - intros (x & Hj). exists j, x. split; [reflexivity | exact Hj].
Qed.

Lemma np_where_gt_in_range (a : list F) (t : F) :
  Forall (fun j => is_Some (a !! j)) (np_where_gt a t).
Proof.
  apply Forall_forall. intros j Hj.
  apply np_where_gt_spec in Hj as (x & Hx & _). eauto.
Qed.

(** Reading back indices that are in range cannot fail. *)
Lemma take_values_in_range (a : list F) (idx : list nat) :
  Forall (fun j => is_Some (a !! j)) idx ->
  exists vs, take_values a idx = Returned vs /\
             Forall2 (fun j v => a !! j = Some v) idx vs.
Proof.
  induction 1 as [|j r [v Hv] _ (vs & Hvs & Hall)]; simpl.
  - exists []. split; [reflexivity | constructor].
  - rewrite Hv, Hvs. exists (v :: vs). split; [reflexivity|].
    constructor; assumption.
Qed.

(** Storing the values of [a] at their own indices into an array of the
    same length: the stored positions agree with [a], the others keep
    what they held. *)
Lemma put_values_same_indices (a init : list F) (idx : list nat) (vs : list F) :
  length init = length a ->
  Forall2 (fun j v => a !! j = Some v) idx vs ->
  exists r, put_values init idx vs = Returned r /\
            length r = length a /\
            forall j, r !! j = if decide (j ∈ idx) then a !! j else init !! j.
Proof.
  intros Hlen Hall. revert init Hlen.
  induction Hall as [|i v r vs Hv _ IH]; intros init Hlen; simpl.
  - exists init. split; [reflexivity|]. split; [assumption|].
    intros j. destruct (decide (j ∈ [])) as [Hj|_]; [inversion Hj | reflexivity].
  - assert (Hi : i < length init).
    { rewrite Hlen. apply lookup_lt_is_Some. eauto. }
    destruct (decide (i < length init)) as [_|Hno]; [|contradiction].
    destruct (IH (<[i := v]> init)) as (res & Hres & Hlr & Hlook).
    { rewrite length_insert. assumption. }
    exists res. split; [assumption|]. split; [assumption|].
    intros j. rewrite Hlook.
    destruct (decide (j ∈ r)) as [Hjr|Hjr].
    + rewrite decide_True by (apply elem_of_cons; tauto). reflexivity.
    + destruct (decide (j = i)) as [->|Hji].
      * rewrite decide_True by (apply elem_of_cons; tauto).
        rewrite list_lookup_insert_eq by assumption. congruence.
      * rewrite decide_False by (rewrite elem_of_cons; tauto).
        apply list_lookup_insert_ne. congruence.
Qed.
End NumpyFacts.

(** ** One run of the cell *)

Section DetectorFacts.
Context {F : Type} `{FloatArith F}.

(** The cell on an allocated array [ya]: the variables it binds and the
    heap it leaves.  [anoms] and its copy are the two arrays appended. *)
Lemma detect_anomalies_run (h : heap F) (y : loc) (ya : list F) (tolerance : F) :
  h !! y = Some ya ->
  let ix := np_where_gt ya (fadd (np_mean ya) (fmul tolerance (np_std ya))) in
  exists an,
    detect_anomalies y tolerance h =
      Returned ({| m := np_mean ya; std := np_std ya; idx := ix;
                   anoms := length h; anoms_orig := S (length h) |},
                h ++ [an; an]) /\
    length an = length ya /\
    forall j, an !! j = if decide (j ∈ ix) then ya !! j
                        else replicate (length ya) nan !! j.
Proof.
  intros Hy ix.
  destruct (take_values_in_range ya ix (np_where_gt_in_range ya _)) as (vs & Hvs & Hall).
  destruct (put_values_same_indices ya (replicate (length ya) nan) ix vs) as (an & Han & Hlen & Hlook);
    [apply length_replicate | exact Hall |].
  exists an. split; [|split; assumption].
  assert (Hy' : (h ++ [replicate (length ya) nan]) !! y = Some ya).
  { rewrite lookup_app_l; [exact Hy | eapply lookup_lt_Some, Hy]. }
  unfold detect_anomalies, bind, read, np_full, alloc, np_take, np_put, np_array,
    write, bind, read, ret, alloc.
  rewrite Hy. simpl. unfold heap in *. rewrite Hy'. simpl. fold ix. rewrite Hvs.
  unfold ret.
  rewrite list_lookup_middle by reflexivity. simpl. rewrite Han.
  rewrite insert_app_r_alt by lia. rewrite Nat.sub_diag. simpl.
  rewrite list_lookup_middle by reflexivity. simpl.
  rewrite length_app, Nat.add_1_r, <- app_assoc. reflexivity.
Qed.

End DetectorFacts.

(** ** The pairwise sum *)

Section SumFacts.
Context {F : Type} `{FloatArith F}.

Lemma block_sum_short (a : list F) : length a < 8 -> block_sum a = foldl fadd zero a.
Proof.
  intros Hn. unfold block_sum.
  destruct a as [|x0 [|x1 [|x2 [|x3 [|x4 [|x5 [|x6 [|x7 a']]]]]]]]; try reflexivity.
  simpl in Hn. lia.
Qed.

Lemma half8_bounds (n : nat) : 128 < n -> 0 < half8 n < n.
Proof.
  intros Hn. unfold half8.
  pose proof (Nat.div_mod_eq n 2). pose proof (Nat.mod_upper_bound n 2).
  pose proof (Nat.mod_upper_bound (n / 2) 8). lia.
Qed.

(** The fuel does not matter once it covers the length. *)
Lemma pairwise_sum_rec_fuel (f1 f2 : nat) (a : list F) :
  length a <= f1 -> length a <= f2 -> pairwise_sum_rec f1 a = pairwise_sum_rec f2 a.
Proof.
  revert f2 a. induction f1 as [|f1 IH]; intros f2 a H1 H2.
  - destruct f2 as [|f2]; simpl; [reflexivity|].
    rewrite decide_True by lia. reflexivity.
  - destruct f2 as [|f2]; simpl.
    + rewrite decide_True by lia. reflexivity.
    + destruct (decide (length a <= 128)) as [_|Hbig]; [reflexivity|].
      pose proof (half8_bounds (length a) ltac:(lia)) as Hh.
      f_equal; apply IH; rewrite ?length_take, ?length_drop; lia.
Qed.

(** The equations of [pairwise_sum]. *)
Lemma pairwise_sum_block (a : list F) : length a <= 128 -> pairwise_sum a = block_sum a.
Proof.
  intros Hn. unfold pairwise_sum. destruct (length a) eqn:E; simpl; [reflexivity|].
  rewrite decide_True by lia. reflexivity.
Qed.

Lemma pairwise_sum_unfold (a : list F) :
  128 < length a ->
  pairwise_sum a = fadd (pairwise_sum (take (half8 (length a)) a))
                        (pairwise_sum (drop (half8 (length a)) a)).
Proof.
  intros Hn. pose proof (half8_bounds (length a) Hn) as Hh. unfold pairwise_sum at 1.
  destruct (length a) as [|n] eqn:E; [lia|]. simpl. rewrite E.
  rewrite decide_False by lia.
  f_equal; apply pairwise_sum_rec_fuel; rewrite ?length_take, ?length_drop; lia.
Qed.

(** A property that an addition passes on from either operand, as being
    NaN, is passed on from an entry to the sum. *)
Section Absorbing.
Variable P : F -> Prop.
Hypothesis P_l : forall x y, P x -> P (fadd x y).
Hypothesis P_r : forall x y, P y -> P (fadd x y).

Lemma foldl_absorbs_acc (x : F) (r : list F) : P x -> P (foldl fadd x r).
Proof.
  revert x. induction r as [|v r IH]; intros x Hx; simpl; [exact Hx|].
  apply IH, P_l, Hx.
Qed.

Lemma foldl_absorbs_elem (x v : F) (r : list F) : v ∈ r -> P v -> P (foldl fadd x r).
Proof.
  intros Hin Hv. revert x. induction Hin as [v r|v w r _ IH]; intros x; simpl.
  - apply foldl_absorbs_acc, P_r, Hv.
  - apply IH, Hv.
Qed.

Lemma add_blocks_absorbs (a : list F) (r0 r1 r2 r3 r4 r5 r6 r7 : F) :
  P r0 \/ P r1 \/ P r2 \/ P r3 \/ P r4 \/ P r5 \/ P r6 \/ P r7 \/
    (exists v, v ∈ a /\ P v) ->
  P (foldl fadd (combine8 (fst (add_blocks (r0, r1, r2, r3, r4, r5, r6, r7) a)))
                (snd (add_blocks (r0, r1, r2, r3, r4, r5, r6, r7) a))).
Proof.
  remember (length a) as n eqn:En. revert a En r0 r1 r2 r3 r4 r5 r6 r7.
  induction n as [n IH] using lt_wf_ind. intros a En r0 r1 r2 r3 r4 r5 r6 r7 HP.
  assert (Hstop : add_blocks (r0, r1, r2, r3, r4, r5, r6, r7) a
                  = (r0, r1, r2, r3, r4, r5, r6, r7, a) ->
          P (foldl fadd (combine8 (fst (add_blocks (r0, r1, r2, r3, r4, r5, r6, r7) a)))
                        (snd (add_blocks (r0, r1, r2, r3, r4, r5, r6, r7) a)))).
  { intros ->. cbn [fst snd combine8].
    destruct HP as [Hp|[Hp|[Hp|[Hp|[Hp|[Hp|[Hp|[Hp|(v & Hv & Hp)]]]]]]]];
      [apply foldl_absorbs_acc; auto 6 .. | eapply foldl_absorbs_elem; eassumption]. }
  destruct a as [|x0 [|x1 [|x2 [|x3 [|x4 [|x5 [|x6 [|x7 a']]]]]]]];
    try (apply Hstop; reflexivity).
  clear Hstop. cbn [add_blocks]. eapply IH; [|reflexivity|].
  { subst n. simpl. lia. }
  destruct HP as [Hp|[Hp|[Hp|[Hp|[Hp|[Hp|[Hp|[Hp|(v & Hv & Hp)]]]]]]]]; auto 10.
  rewrite !elem_of_cons in Hv.
  destruct Hv as [->|[->|[->|[->|[->|[->|[->|[->|Hv]]]]]]]]; auto 10.
  do 8 right. exists v. split; assumption.
Qed.

Lemma block_sum_absorbs (a : list F) (v : F) : v ∈ a -> P v -> P (block_sum a).
Proof.
  intros Hv Hp. unfold block_sum.
  destruct a as [|x0 [|x1 [|x2 [|x3 [|x4 [|x5 [|x6 [|x7 a']]]]]]]];
    try (eapply foldl_absorbs_elem; eassumption).
  pose proof (add_blocks_absorbs a' x0 x1 x2 x3 x4 x5 x6 x7) as Hb.
  destruct (add_blocks (x0, x1, x2, x3, x4, x5, x6, x7) a') as [r rest].
  apply Hb. rewrite !elem_of_cons in Hv.
  destruct Hv as [->|[->|[->|[->|[->|[->|[->|[->|Hv]]]]]]]]; auto 10.
  do 8 right. exists v. split; assumption.
Qed.

Lemma pairwise_sum_rec_absorbs (fuel : nat) (a : list F) (v : F) :
  v ∈ a -> P v -> P (pairwise_sum_rec fuel a).
Proof.
  revert a. induction fuel as [|fuel IH]; intros a Hv Hp; simpl.
  - eapply block_sum_absorbs; eassumption.
  - destruct (decide _); [eapply block_sum_absorbs; eassumption|].
    rewrite <- (take_drop (half8 (length a)) a) in Hv.
    apply elem_of_app in Hv as [Hv|Hv].
    + apply P_l, IH; assumption.
    + apply P_r, IH; assumption.
Qed.

Lemma np_sum_absorbs (a : list F) (v : F) : v ∈ a -> P v -> P (np_sum a).
Proof. intros Hv Hp. apply P_r. eapply pairwise_sum_rec_absorbs; eassumption. Qed.
End Absorbing.
End SumFacts.

(** ** NaN and the order in the statistics *)

Section StatisticsFacts.
Context {F : Type} `{FloatLaws F}.

Lemma np_sum_nan (a : list F) (v : F) : v ∈ a -> is_nan v -> is_nan (np_sum a).
Proof. apply (np_sum_absorbs is_nan fadd_nan_l fadd_nan_r). Qed.

Lemma np_mean_nan (a : list F) (v : F) : v ∈ a -> is_nan v -> is_nan (np_mean a).
Proof. intros Hin Hv. apply fdiv_nan_l. eapply np_sum_nan; eassumption. Qed.

Lemma np_std_nan (a : list F) (v : F) : v ∈ a -> is_nan v -> is_nan (np_std a).
Proof.
  intros Hin Hv. unfold np_std. apply fsqrt_nan.
  apply np_mean_nan with (v := fmul (fsub v (np_mean a)) (fsub v (np_mean a))).
  - rewrite map_map. apply (list_elem_of_fmap_2 (fun v => fmul (fsub v (np_mean a)) (fsub v (np_mean a)))), Hin.
  - apply fmul_nan_l, fsub_nan_l, Hv.
Qed.

Lemma where_gt_from_nan (i : nat) (a : list F) (t : F) :
  is_nan t -> where_gt_from i a t = [].
Proof.
  intros Ht. revert i. induction a as [|x r IH]; intros i; simpl; [reflexivity|].
  unfold fgtb. rewrite (fltb_nan_l t x Ht). apply IH.
Qed.

(** With well-formed tolerances [0 < t1 < t2], a value above the threshold of
    the larger tolerance is above the threshold of the smaller one. *)
Lemma threshold_antitone `{!MonotoneRounding F} (num den x t1 t2 s : F) :
  fvalid t1 = true -> fvalid t2 = true ->
  fltb zero t1 = true -> fltb t1 t2 = true ->
  fgtb x (fadd (fdiv num den) (fmul t2 (fsqrt s))) = true ->
  fgtb x (fadd (fdiv num den) (fmul t1 (fsqrt s))) = true.
Proof.
  unfold fgtb. intros V1 V2 Ht1 Ht12 Hx. set (mu := fdiv num den) in *.
  assert (Hnn : forall b, is_nan b -> fltb (fadd mu b) x = true -> False).
  { intros b Hb Hlt. rewrite (fltb_nan_l _ x (fadd_nan_r mu b Hb)) in Hlt. discriminate. }
  destruct (fsqrt_sign s) as [Hs|Hs].
  { exfalso. apply (Hnn (fmul t2 (fsqrt s))); [apply fmul_nan_r, Hs | exact Hx]. }
  destruct (fmul_mono t1 t2 (fsqrt s) V1 V2 (fsqrt_valid s) Ht1 Ht12 Hs)
    as (Ha & Va & [Hb|[Vb Hab]]).
  { exfalso. apply (Hnn _ Hb Hx). }
  destruct (fadd_mono mu _ _ (fdiv_valid num den) Va Vb Ha Hab) as [Hb|Hle].
  { rewrite (fltb_nan_l _ x Hb) in Hx. discriminate. }
  eapply fleb_fltb_trans; eassumption.
Qed.
End StatisticsFacts.

(** ** The global-threshold detector *)

Section GlobalMode.
Context {F : Type} `{FloatLaws F}.


(** C7: for well-formed tolerances [0 < t1 < t2], every index flagged at
    [t2] is flagged at [t1]. *)
Theorem larger_tolerance_flags_fewer `{!MonotoneRounding F}
    (h : heap F) (y : loc) (ya : list F) (t1 t2 : F) :
  h !! y = Some ya ->
  fvalid t1 = true -> fvalid t2 = true ->
  fltb zero t1 = true -> fltb t1 t2 = true ->
  exists v1 h1 v2 h2,
    detect_anomalies y t1 h = Returned (v1, h1) /\
    detect_anomalies y t2 h = Returned (v2, h2) /\
    idx v2 ⊆ idx v1.
Proof.
  intros Hy V1 V2 Ht1 Ht12.
  destruct (detect_anomalies_run h y ya t1 Hy) as (an1 & Hrun1 & _).
  destruct (detect_anomalies_run h y ya t2 Hy) as (an2 & Hrun2 & _).
  eexists _, _, _, _. split; [exact Hrun1|]. split; [exact Hrun2|]. simpl.
  intros i Hi. apply np_where_gt_spec in Hi as (x & Hx & Hgt).
  apply np_where_gt_spec. exists x. split; [exact Hx|].
  unfold np_std, np_mean in *. eapply threshold_antitone; eassumption.
Qed.

(** C9: when the series holds a NaN, the mean, the standard deviation and
    the threshold are NaN and no index is flagged. *)
Theorem nan_in_series_flags_nothing
    (h : heap F) (y : loc) (ya : list F) (tolerance : F) :
  h !! y = Some ya ->
  (exists i x, ya !! i = Some x /\ is_nan x) ->
  exists v h',
    detect_anomalies y tolerance h = Returned (v, h') /\
    is_nan (m v) /\ is_nan (std v) /\ is_nan (threshold tolerance v) /\
    idx v = [].
Proof.
  intros Hy (i & x & Hi & Hx).
  destruct (detect_anomalies_run h y ya tolerance Hy) as (an & Hrun & _).
  assert (Hin : x ∈ ya) by (apply list_elem_of_lookup; eauto).
  assert (Hm : is_nan (np_mean ya)) by (eapply np_mean_nan; eassumption).
  eexists _, _. split; [exact Hrun|]. unfold threshold; simpl.
  split; [exact Hm|]. split; [eapply np_std_nan; eassumption|].
  split; [apply fadd_nan_l, Hm|].
  apply where_gt_from_nan, fadd_nan_l, Hm.
Qed.

(** C10: the array [anoms] has the length of the input, holds the input
    value at every flagged index and NaN at every other index, and the
    input array, like every array allocated before the call, is left as it
    was. *)
Theorem anoms_holds_flagged_values
    (h : heap F) (y : loc) (ya : list F) (tolerance : F) :
  h !! y = Some ya ->
  exists v h' an,
    detect_anomalies y tolerance h = Returned (v, h') /\
    h' !! anoms v = Some an /\
    length an = length ya /\
    (forall i, i ∈ idx v -> an !! i = ya !! i) /\
    (forall i, i < length ya -> i ∉ idx v -> an !! i = Some nan) /\
    h' !! y = Some ya /\
    (forall l, l < length h -> h' !! l = h !! l).
Proof.
  intros Hy.
  destruct (detect_anomalies_run h y ya tolerance Hy) as (an & Hrun & Hlen & Hlook).
  assert (Hold : forall l, l < length h -> (h ++ [an; an]) !! l = h !! l).
  { intros l Hl. apply lookup_app_l, Hl. }
  eexists _, _, an. split; [exact Hrun|]. simpl.
  split; [apply list_lookup_middle; reflexivity|]. split; [exact Hlen|].
  split; [|split; [|split]].
  - intros i Hi. rewrite Hlook, decide_True by exact Hi. reflexivity.
  - intros i Hi Hni. rewrite Hlook, decide_False by exact Hni.
    apply lookup_replicate_2, Hi.
  - rewrite Hold; [exact Hy | eapply lookup_lt_Some, Hy].
  - exact Hold.
Qed.
End GlobalMode.

(** ** The tolerance as a Python number *)

Section Tolerance64.
Import Binary64.

End Tolerance64.

(** ** Exponentially weighted statistics *)

Section PandasFacts.
Context {F : Type} `{FloatLaws F}.

Lemma length_ewma_loop (owf : F) (st : ewma_state) (input : list F) :
  length (ewma_loop owf st input) = length input.
Proof.
  revert st. induction input as [|cur r IH]; intros st; simpl; [reflexivity|].
  rewrite IH. reflexivity.
Qed.

Lemma length_ewma (input : list F) (com : F) : length (ewma input com) = length input.
Proof.
  destruct input as [|x0 r]; simpl; [reflexivity|].
  rewrite length_ewma_loop. reflexivity.
Qed.

Lemma length_ewmcov_loop (owf : F) (st : ewmcov_state) (input : list (F * F)) :
  length (ewmcov_loop owf st input) = length input.
Proof.
  revert st. induction input as [|cur r IH]; intros st; simpl; [reflexivity|].
  rewrite IH. reflexivity.
Qed.

Lemma length_ewmcov (input : list F) (com : F) :
  length (ewmcov input input com) = length input.
Proof.
  unfold ewmcov. destruct input as [|x0 r]; simpl; [reflexivity|].
  rewrite length_ewmcov_loop, length_zip. lia.
Qed.

Lemma zsqrt_nan (x : F) : is_nan x -> is_nan (zsqrt x).
Proof.
  intros Hx. unfold zsqrt. rewrite (fltb_nan_l x zero Hx). apply fsqrt_nan, Hx.
Qed.

End PandasFacts.

(** ** Decomposition followed by detection *)

Section DriverFacts.
Context {F : Type} `{FloatArith F}.
Variable STL : loc -> nat -> M F stl_result.
Variable rolling_detector : loc -> F -> nat -> M F (cell_vars F).

(** C6: with a period the driver first decomposes with that period, then
    runs the detector on the remainder under the same configuration, and
    returns the report with the remainder; an error of either stage is the
    driver's error.  Without a period it runs the detector on the series
    and returns the series in place of the remainder. *)
Theorem driver_decomposes_then_detects
    (series : loc) (config : DetectionConfig F) (h : heap F) :
  detect_anomalies_with_decomposition STL rolling_detector series config h =
    match period config with
    | Some p =>
        match STL series p h with
        | Returned (d, h1) =>
            match detect rolling_detector (remainder d) config h1 with
            | Returned (report, h2) => Returned ((report, remainder d), h2)
            | Raised e => Raised e
            end
        | Raised e => Raised e
        end
    | None =>
        match detect rolling_detector series config h with
        | Returned (report, h1) => Returned ((report, series), h1)
        | Raised e => Raised e
        end
    end.
Proof.
  unfold detect_anomalies_with_decomposition.
  destruct (period config) as [p|]; unfold bind, ret.
  - destruct (STL series p h) as [[d h1]|e]; [|reflexivity].
    destruct (detect rolling_detector (remainder d) config h1) as [[report h2]|e];
      reflexivity.
  - destruct (detect rolling_detector series config h) as [[report h1]|e]; reflexivity.
Qed.

(** Without a window and with a period, the driver is the two cells of
    the notebook. *)
Lemma driver_is_notebook_cells (series : loc) (config : DetectionConfig F) (p : nat) :
  period config = Some p -> window config = None ->
  detect_anomalies_with_decomposition STL rolling_detector series config =
  stl_then_detect STL series p (tolerance config).
Proof.
  intros Hp Hw. unfold detect_anomalies_with_decomposition, stl_then_detect, detect.
  rewrite Hp, Hw. reflexivity.
Qed.
End DriverFacts.

(** ** Further properties of the global-threshold cell *)

Section HeapFacts.
Context {F : Type}.

Lemma heap_lookup_first (h : heap F) (a b : list F) :
  (h ++ [a; b]) !! length h = Some a.
Proof. unfold heap in *. rewrite lookup_app_r by lia. rewrite Nat.sub_diag. reflexivity. Qed.

Lemma heap_lookup_second (h : heap F) (a b : list F) :
  (h ++ [a; b]) !! S (length h) = Some b.
Proof.
  unfold heap in *. rewrite lookup_app_r by lia.
  replace (S (length h) - length h) with 1 by lia. reflexivity.
Qed.

Lemma heap_lookup_old (h : heap F) (l : loc) (x a b : list F) :
  h !! l = Some x -> (h ++ [a; b]) !! l = Some x /\ l < length h.
Proof.
  unfold heap in *. intros Hl. pose proof (lookup_lt_Some _ _ _ Hl).
  rewrite lookup_app_l by lia. split; [exact Hl | lia].
Qed.
End HeapFacts.

Section IndexFacts.
Context {F : Type} `{FloatArith F}.

Lemma where_gt_from_lower (i : nat) (a : list F) (t : F) (j : nat) :
  j ∈ where_gt_from i a t -> i <= j.
Proof.
  revert i. induction a as [|x r IH]; intros i; simpl.
  - intros Hj. inversion Hj.
  - destruct (fgtb x t).
    + rewrite elem_of_cons. intros [->|Hj]; [lia|]. apply IH in Hj. lia.
    + intros Hj. apply IH in Hj. lia.
Qed.

Lemma where_gt_from_increasing (i : nat) (a : list F) (t : F) (p q j k : nat) :
  where_gt_from i a t !! p = Some j ->
  where_gt_from i a t !! q = Some k ->
  p < q -> j < k.
Proof.
  revert i p q. induction a as [|x r IH]; intros i p q; simpl.
  - intros Hp. discriminate.
  - destruct (fgtb x t).
    + destruct p as [|p], q as [|q]; simpl; try lia.
      * intros [= <-] Hq _. apply list_elem_of_lookup_2, where_gt_from_lower in Hq. lia.
      * intros Hp Hq Hpq. eapply IH; [exact Hp | exact Hq | lia].
    + apply IH.
Qed.

(** A store through [a[idx] = vs] changes the array behind [a] and no
    other. *)
Lemma np_put_writes_one (h h2 : heap F) (l : loc) (idx : list nat) (vs : list F) :
  np_put l idx vs h = Returned (tt, h2) ->
  forall l', l' <> l -> h2 !! l' = h !! l'.
Proof.
  unfold np_put, bind, read, write, raise, ret.
  destruct (put_values _ idx vs) as [x'|e]; [|discriminate].
  intros [= <-] l' Hl. unfold heap in *. apply list_lookup_insert_ne. congruence.
Qed.
End IndexFacts.

Section CellFacts.
Context {F : Type} `{FloatLaws F}.

(** X1: the list [idx] of the global-threshold cell holds valid positions
    of the series in strictly increasing order, so no position is reported
    twice. *)
Theorem idx_strictly_increasing
    (h : heap F) (y : loc) (ya : list F) (tolerance : F) :
  h !! y = Some ya ->
  exists v h', detect_anomalies y tolerance h = Returned (v, h') /\
    (forall p j, idx v !! p = Some j -> j < length ya) /\
    (forall p q j k, idx v !! p = Some j -> idx v !! q = Some k -> p < q -> j < k).
Proof.
  intros Hy. destruct (detect_anomalies_run h y ya tolerance Hy) as (an & Hrun & _).
  eexists _, _. split; [exact Hrun|]. simpl. split.
  - intros p j Hp. apply list_elem_of_lookup_2 in Hp.
    apply np_where_gt_spec in Hp as (x & Hx & _).
    eapply lookup_lt_Some, Hx.
  - intros p q j k. apply where_gt_from_increasing.
Qed.

(** X2: the flagged positions can be read back from [anoms]: at every
    position of the series, the entry of [anoms] is a number (not NaN)
    exactly when the position is in [idx]. *)
Theorem anoms_number_iff_flagged
    (h : heap F) (y : loc) (ya : list F) (tolerance : F) :
  h !! y = Some ya ->
  exists v h' an, detect_anomalies y tolerance h = Returned (v, h') /\
    h' !! anoms v = Some an /\
    forall i, i < length ya ->
      exists a, an !! i = Some a /\ (~ is_nan a <-> i ∈ idx v).
Proof.
  intros Hy. destruct (detect_anomalies_run h y ya tolerance Hy) as (an & Hrun & Hlen & Hlook).
  eexists _, _, an. split; [exact Hrun|]. simpl. split.
  { apply heap_lookup_first. }
  intros i Hi. rewrite Hlook. destruct (decide _) as [Hin|Hin].
  - pose proof Hin as Hin'. apply np_where_gt_spec in Hin' as (x & Hx & Hgt).
    exists x. split; [exact Hx|]. split; [intros _; exact Hin|]. intros _ Hnan.
    unfold fgtb in Hgt. rewrite (fltb_nan_r _ x Hnan) in Hgt. discriminate.
  - exists nan. split; [apply lookup_replicate_2, Hi|]. split.
    + intros Hn. destruct Hn. apply nan_is_nan.
    + intros Hc. contradiction.
Qed.

(** X3: [anoms_orig = np.array(anoms)] is a copy and not a second name:
    it holds the contents of [anoms] in an array of its own, distinct from
    [anoms] and from [y], and a later store into [anoms] changes neither
    [anoms_orig] nor [y]. *)
Theorem anoms_orig_is_independent_copy
    (h : heap F) (y : loc) (ya : list F) (tolerance : F) :
  h !! y = Some ya ->
  exists v h' an, detect_anomalies y tolerance h = Returned (v, h') /\
    h' !! anoms v = Some an /\ h' !! anoms_orig v = Some an /\
    anoms_orig v <> anoms v /\ anoms_orig v <> y /\ anoms v <> y /\
    forall idx2 vs h2, np_put (anoms v) idx2 vs h' = Returned (tt, h2) ->
      h2 !! anoms_orig v = Some an /\ h2 !! y = Some ya.
Proof.
  intros Hy. destruct (detect_anomalies_run h y ya tolerance Hy) as (an & Hrun & Hlen & Hlook).
  eexists _, _, an. split; [exact Hrun|]. simpl.
  pose proof (heap_lookup_first h an an) as Ha.
  pose proof (heap_lookup_second h an an) as Ho.
  destruct (heap_lookup_old h y ya an an Hy) as [Hy' Hlt].
  split; [exact Ha|]. split; [exact Ho|]. split; [lia|]. split; [lia|]. split; [lia|].
  intros idx2 vs h2 Hput. pose proof (np_put_writes_one _ _ _ _ _ Hput) as Hw.
  split; (rewrite Hw; [assumption | lia]).
Qed.

(** X4: a NaN tolerance is not rejected either: the cell returns, flags
    nothing and leaves [anoms] all NaN. *)
Theorem nan_tolerance_flags_nothing
    (h : heap F) (y : loc) (ya : list F) (tolerance : F) :
  h !! y = Some ya -> is_nan tolerance ->
  exists v h' an, detect_anomalies y tolerance h = Returned (v, h') /\
    idx v = [] /\ h' !! anoms v = Some an /\ an = replicate (length ya) nan.
Proof.
  intros Hy Ht. destruct (detect_anomalies_run h y ya tolerance Hy) as (an & Hrun & Hlen & Hlook).
  assert (Hix : np_where_gt ya (fadd (np_mean ya) (fmul tolerance (np_std ya))) = []).
  { apply where_gt_from_nan, fadd_nan_r, fmul_nan_l, Ht. }
  eexists _, _, an. split; [exact Hrun|]. simpl. split; [exact Hix|]. split.
  { apply heap_lookup_first. }
  apply list_eq. intros j. rewrite Hlook, Hix.
  destruct (decide _) as [Hin|_]; [inversion Hin | reflexivity].
Qed.
End CellFacts.

(** ** Subtraction, and sums with a non-negative term, in binary64 *)

Module Binary64Order.
Import Binary64 Binary64Facts.
Local Open Scope Z_scope.

(** The difference of two finite numbers is the rounding of the exact
    difference. *)
Lemma SFsub_finite_key sx mx ex sy my ey :
  bounded prec emax mx ex = true -> bounded prec emax my ey = true ->
  let x := S754_finite sx mx ex in
  let y := S754_finite sy my ey in
  valid64 (SFsub prec emax x y) /\ SFsub prec emax x y <> S754_nan /\
  key (SFsub prec emax x y) = Rs (key x - key y).
Proof.
  intros Hx Hy x y. unfold x, y. cbn [SFsub key].
  apply bounded_iff in Hx as [Cx _]. apply bounded_iff in Hy as [Cy _].
  destruct (canonical_facts _ _ (Pos2Z.is_pos mx) Cx) as (Ex & _).
  destruct (canonical_facts _ _ (Pos2Z.is_pos my) Cy) as (Ey & _).
  pose proof (shl_align_spec mx ex (Z.min ex ey)) as Sx.
  pose proof (shl_align_spec my ey (Z.min ex ey)) as Sy.
  destruct (shl_align mx ex (Z.min ex ey)) as [mx' ex'].
  destruct (shl_align my ey (Z.min ex ey)) as [my' ey'].
  destruct Sx as [Ex' Mx]. destruct Sy as [Ey' My]. cbn [fst].
  assert (Hex : ex' = Z.min ex ey) by lia. assert (Hey : ey' = Z.min ex ey) by lia.
  set (ez := Z.min ex ey) in *.
  destruct (binary_normalize_key (cond_Zopp sx (Z.pos mx') - cond_Zopp sy (Z.pos my')) ez
              ltac:(lia)) as (V & N & K).
  split; [exact V|]. split; [exact N|]. rewrite K. f_equal.
  rewrite !cond_Zopp_sgn, Z.mul_sub_distr_r, !sgn_mul, Mx, My, Hex, Hey.
  rewrite <- !Z.mul_assoc, <- !Z.pow_add_r by lia.
  replace (ex - ez + (ez + 1074)) with (ex + 1074) by lia.
  replace (ey - ez + (ez + 1074)) with (ey + 1074) by lia.
  reflexivity.
Qed.

Lemma key_negate s m e : key (S754_finite (negb s) m e) = - key (S754_finite s m e).
Proof. destruct s; cbn [key sgn negb]; lia. Qed.

Lemma SFsub_key x y :
  valid64 x -> valid64 y -> is_finite x -> is_finite y ->
  valid64 (SFsub prec emax x y) /\ SFsub prec emax x y <> S754_nan /\
  key (SFsub prec emax x y) = Rs (key x - key y).
Proof.
  intros Vx Vy Fx Fy.
  destruct x as [sx|sx| |sx mx ex]; try contradiction;
    destruct y as [sy|sy| |sy my ey]; try contradiction.
  - split; [destruct sx, sy; reflexivity|]. split; [destruct sx, sy; discriminate|].
    destruct sx, sy; symmetry; apply Rv_0.
  - cbn [SFsub].
    assert (Vn : valid64 (S754_finite (negb sy) my ey)) by exact Vy.
    split; [exact Vn|]. split; [discriminate|].
    change (key (S754_zero sx)) with 0. rewrite Z.sub_0_l, <- key_negate.
    symmetry. apply Rs_valid; [exact Vn | exact I].
  - cbn [SFsub]. split; [exact Vx|]. split; [discriminate|].
    change (key (S754_zero sy)) with 0. rewrite Z.sub_0_r. symmetry. apply Rs_valid; assumption.
  - apply SFsub_finite_key; assumption.
Qed.

Lemma nonneg_key k :
  valid64 k -> SFleb (S754_zero false) k = true -> k <> S754_nan /\ 0 <= key k.
Proof.
  intros Vk Hk.
  assert (Nk : k <> S754_nan) by (intros ->; discriminate).
  split; [exact Nk|].
  assert (V0 : valid64 (S754_zero false)) by reflexivity.
  assert (N0 : S754_zero false <> S754_nan) by discriminate.
  apply (SFleb_key _ _ V0 Vk N0 Nk) in Hk. exact Hk.
Qed.

(** Adding a non-negative number does not give less. *)
Lemma SFadd_nonneg_ge mu k :
  valid64 mu -> valid64 k -> SFleb (S754_zero false) k = true ->
  SFadd prec emax mu k = S754_nan \/ SFleb mu (SFadd prec emax mu k) = true.
Proof.
  intros Vm Vk Hk. destruct (nonneg_key k Vk Hk) as [Nk Kk].
  destruct (nonneg_cases k Nk Kk) as [Fk | ->].
  - destruct mu as [sm|sm| |sm mm em].
    + destruct (SFadd_key _ k Vm Vk I Fk) as (V1 & N1 & K1). right.
      apply SFleb_key; [assumption | assumption | discriminate | assumption |].
      rewrite K1. rewrite <- (Rs_valid (S754_zero sm) Vm I) at 1. apply Rs_mono. lia.
    + right. destruct k as [| | |]; try contradiction; destruct sm; reflexivity.
    + left. reflexivity.
    + destruct (SFadd_key _ k Vm Vk I Fk) as (V1 & N1 & K1). right.
      apply SFleb_key; [assumption | assumption | discriminate | assumption |].
      rewrite K1. rewrite <- (Rs_valid (S754_finite sm mm em) Vm I) at 1. apply Rs_mono. lia.
  - destruct mu as [sm|[]| |sm mm em]; try (left; reflexivity); right; try reflexivity;
      destruct sm; reflexivity.
Qed.

(** Subtracting a non-negative number does not give more. *)
Lemma SFsub_nonneg_le mu k :
  valid64 mu -> valid64 k -> SFleb (S754_zero false) k = true ->
  SFsub prec emax mu k = S754_nan \/ SFleb (SFsub prec emax mu k) mu = true.
Proof.
  intros Vm Vk Hk. destruct (nonneg_key k Vk Hk) as [Nk Kk].
  destruct (nonneg_cases k Nk Kk) as [Fk | ->].
  - destruct mu as [sm|sm| |sm mm em].
    + destruct (SFsub_key _ k Vm Vk I Fk) as (V1 & N1 & K1). right.
      apply SFleb_key; [assumption | assumption | assumption | discriminate |].
      rewrite K1. rewrite <- (Rs_valid (S754_zero sm) Vm I) at 2. apply Rs_mono. lia.
    + right. destruct k as [| | |]; try contradiction; destruct sm; reflexivity.
    + left. reflexivity.
    + destruct (SFsub_key _ k Vm Vk I Fk) as (V1 & N1 & K1). right.
      apply SFleb_key; [assumption | assumption | assumption | discriminate |].
      rewrite K1. rewrite <- (Rs_valid (S754_finite sm mm em) Vm I) at 2. apply Rs_mono. lia.
  - destruct mu as [sm|[]| |sm mm em]; try (left; reflexivity); right; try reflexivity;
      destruct sm; reflexivity.
Qed.

(** A positive number times a non-negative one is NaN or non-negative. *)
Lemma SFmul_nonneg t s :
  valid64 t -> valid64 s ->
  SFltb (S754_zero false) t = true -> SFleb (S754_zero false) s = true ->
  SFmul prec emax t s = S754_nan \/
  (valid64 (SFmul prec emax t s) /\ SFleb (S754_zero false) (SFmul prec emax t s) = true).
Proof.
  intros Vt Vs Ht Hs.
  destruct (SFltb t (S754_infinity false)) eqn:Hinf.
  - right. destruct (SFmul_mono t (S754_infinity false) s Vt eq_refl Vs Ht Hinf Hs)
      as (H1 & H2 & _). split; assumption.
  - destruct t as [[]|[]| |[] mt et]; try discriminate.
    destruct s as [[]|[]| |[] ms es]; try discriminate;
      try (left; reflexivity); right; split; reflexivity.
Qed.

(** Equal numbers are not in strict order. *)
Lemma SFeqb_not_SFltb (x t : float64) : SFeqb x t = true -> SFltb t x = false.
Proof.
  unfold SFeqb, SFltb.
  destruct x as [[]|[]| |[] mx ex], t as [[]|[]| |[] mt et]; simpl;
    try congruence; intros Hxy; compare_cases; subst;
    try reflexivity; try discriminate; lia.
Qed.

(** One entry of the two bands around [mu], for a positive factor [k]. *)
Lemma band_entry (mu s k : float64) :
  valid64 mu -> valid64 s -> valid64 k -> SFltb (S754_zero false) k = true ->
  s = S754_nan \/ SFleb (S754_zero false) s = true ->
  (SFsub prec emax mu (SFmul prec emax k s) = S754_nan \/
   SFleb (SFsub prec emax mu (SFmul prec emax k s)) mu = true) /\
  (SFadd prec emax mu (SFmul prec emax k s) = S754_nan \/
   SFleb mu (SFadd prec emax mu (SFmul prec emax k s)) = true).
Proof.
  intros Vm Vs Vk Hk [->|Hs].
  { split; left; destruct mu as [| | |], k as [| | |]; reflexivity. }
  destruct (SFmul_nonneg k s Vk Vs Hk Hs) as [Hp|[Vp Hp]].
  { rewrite Hp. split; left; destruct mu as [| | |]; reflexivity. }
  split.
  - apply (SFsub_nonneg_le mu _ Vm Vp Hp).
  - apply (SFadd_nonneg_ge mu _ Vm Vp Hp).
Qed.
End Binary64Order.

(** ** Sums that meet an infinity, in binary64 *)

Module Binary64Infinite.
Import Binary64 Binary64Facts.

Lemma SFadd_inf_l s x y : inf_or_nan s x -> inf_or_nan s (SFadd prec emax x y).
Proof.
  intros [-> | ->]; [|right; reflexivity].
  destruct y as [sy|sy| |sy my ey]; simpl; try (left; reflexivity); try (right; reflexivity).
  destruct s, sy; simpl; (left; reflexivity) || (right; reflexivity).
Qed.

Lemma SFadd_inf_r s x y : inf_or_nan s y -> inf_or_nan s (SFadd prec emax x y).
Proof.
  intros [-> | ->]; [|right; destruct x as [| | |]; reflexivity].
  destruct x as [sx|sx| |sx mx ex]; simpl; try (left; reflexivity); try (right; reflexivity).
  destruct sx, s; simpl; (left; reflexivity) || (right; reflexivity).
Qed.

(** The length of an array as a float is not negative. *)
Lemma of_nat_shape (n : nat) : shape false (of_Z (Z.of_nat n)).
Proof.
  destruct n as [|n]; [left; reflexivity|].
  rewrite Nat2Z.inj_succ, <- Z.add_1_r.
  destruct (Z.of_nat n + 1)%Z as [|p|p] eqn:E; try lia.
  unfold of_Z, binary_normalize.
  destruct (binary_round_key false p 0 ltac:(lia)) as (_ & _ & _ & Hs). exact Hs.
Qed.

Lemma SFdiv_inf s x d : inf_or_nan s x -> shape false d -> inf_or_nan s (SFdiv prec emax x d).
Proof.
  intros [-> | ->] Hd; [|right; reflexivity].
  destruct Hd as [-> | [-> | (md & ed & ->)]]; simpl.
  - left. rewrite xorb_false_r. reflexivity.
  - right. reflexivity.
  - left. rewrite xorb_false_r. reflexivity.
Qed.

Lemma SFsub_inf s mu : inf_or_nan s mu -> SFsub prec emax (S754_infinity s) mu = S754_nan.
Proof. intros [-> | ->]; [destruct s|]; reflexivity. Qed.

(** The mean of a series that holds an infinity is that infinity or NaN. *)
Lemma np_mean_inf s (a : list float64) :
  S754_infinity s ∈ a -> inf_or_nan s (np_mean a).
Proof.
  intros Hin. unfold np_mean. apply SFdiv_inf.
  - apply (@np_sum_absorbs float64 binary64_arith (inf_or_nan s)
             (SFadd_inf_l s) (SFadd_inf_r s) a _ Hin).
    left. reflexivity.
  - apply of_nat_shape.
Qed.

(** Its standard deviation is NaN: the deviation of the infinite sample
    from the mean is. *)
Lemma np_std_inf s (a : list float64) : S754_infinity s ∈ a -> np_std a = S754_nan.
Proof.
  intros Hin. apply is_nan_binary64. unfold np_std. apply fsqrt_nan.
  apply np_mean_nan with (v := fmul (fsub (S754_infinity s) (np_mean a))
                                    (fsub (S754_infinity s) (np_mean a))).
  - rewrite map_map.
    apply (list_elem_of_fmap_2 (fun v => fmul (fsub v (np_mean a)) (fsub v (np_mean a)))), Hin.
  - apply fmul_nan_l, is_nan_binary64. apply SFsub_inf, np_mean_inf, Hin.
Qed.
End Binary64Infinite.

(** ** The global-threshold cell on binary64 *)

Section Cell64.
Import Binary64 Binary64Facts Binary64Order Binary64Infinite.

(** X5: on an empty series the cell raises nothing: the mean and the
    standard deviation are NaN, nothing is flagged, and [anoms] and its copy
    are empty. *)
Theorem empty_series_flags_nothing (h : heap float64) (y : loc) (tolerance : float64) :
  h !! y = Some [] ->
  exists v h', detect_anomalies y tolerance h = Returned (v, h') /\
    m v = S754_nan /\ std v = S754_nan /\ idx v = [] /\
    h' !! anoms v = Some [] /\ h' !! anoms_orig v = Some [].
Proof.
  intros Hy. destruct (detect_anomalies_run h y [] tolerance Hy) as (an & Hrun & Hlen & _).
  destruct an; [|discriminate].
  eexists _, _. split; [exact Hrun|]. simpl.
  repeat split; try reflexivity; [apply heap_lookup_first | apply heap_lookup_second].
Qed.

(** X6: with a well-formed positive tolerance every flagged value lies
    strictly above the mean [m]: in binary64 the rounded threshold
    [m + tolerance * std] is never below [m]. *)
Theorem flagged_values_exceed_mean
    (h : heap float64) (y : loc) (ya : list float64) (tolerance : float64) :
  h !! y = Some ya ->
  fvalid tolerance = true -> fltb zero tolerance = true ->
  exists v h', detect_anomalies y tolerance h = Returned (v, h') /\
    forall i, i ∈ idx v -> exists x, ya !! i = Some x /\ fltb (m v) x = true.
Proof.
  intros Hy Vt Ht. destruct (detect_anomalies_run h y ya tolerance Hy) as (an & Hrun & _).
  eexists _, _. split; [exact Hrun|]. cbn [idx m]. intros i Hi.
  apply np_where_gt_spec in Hi as (x & Hx & Hgt). exists x. split; [exact Hx|].
  unfold fgtb in Hgt.
  assert (Vm : valid64 (np_mean ya)) by apply SFdiv_valid.
  assert (Vs : valid64 (np_std ya)) by apply SFsqrt_valid.
  assert (Hs : np_std ya = S754_nan \/ SFleb (S754_zero false) (np_std ya) = true)
    by apply SFsqrt_sign.
  revert Hgt Vm Vs Hs. generalize (np_std ya) (np_mean ya). intros s mu Hgt Vm Vs Hs.
  change (SFltb (SFadd prec emax mu (SFmul prec emax tolerance s)) x = true) in Hgt.
  change (SFltb mu x = true).
  destruct Hs as [->|Hs].
  { exfalso. destruct tolerance as [| | |], mu as [| | |]; discriminate. }
  destruct (SFmul_nonneg tolerance s Vt Vs Ht Hs) as [Hk|[Vk Hk]].
  { exfalso. rewrite Hk in Hgt. destruct mu as [| | |]; discriminate. }
  destruct (SFadd_nonneg_ge mu _ Vm Vk Hk) as [Hn|Hle].
  { exfalso. rewrite Hn in Hgt. discriminate. }
  exact (SFleb_SFltb_trans _ _ _ Hle Hgt).
Qed.

(** X7: the comparison with the threshold is strict: a sample equal to
    [m + tolerance * std] is not flagged. *)
Theorem value_at_threshold_not_flagged
    (h : heap float64) (y : loc) (ya : list float64) (tolerance : float64) :
  h !! y = Some ya ->
  exists v h', detect_anomalies y tolerance h = Returned (v, h') /\
    forall i x, ya !! i = Some x -> feqb x (threshold tolerance v) = true -> i ∉ idx v.
Proof.
  intros Hy. destruct (detect_anomalies_run h y ya tolerance Hy) as (an & Hrun & _).
  eexists _, _. split; [exact Hrun|]. unfold threshold. cbn [idx m std].
  intros i x Hx Heq Hi.
  apply np_where_gt_spec in Hi as (x' & Hx' & Hgt).
  assert (x' = x) by congruence. subst x'.
  unfold fgtb in Hgt. exact (eq_true_false_abs _ Hgt (SFeqb_not_SFltb _ _ Heq)).
Qed.

(** X8: an infinite sample blinds the detector as a NaN does: the mean is
    that infinity or NaN, the standard deviation is NaN, and nothing is
    flagged, not even the infinite sample. *)
Theorem infinite_value_flags_nothing
    (h : heap float64) (y : loc) (ya : list float64) (tolerance : float64) (s : bool) :
  h !! y = Some ya -> S754_infinity s ∈ ya ->
  exists v h', detect_anomalies y tolerance h = Returned (v, h') /\
    (m v = S754_infinity s \/ m v = S754_nan) /\ std v = S754_nan /\ idx v = [].
Proof.
  intros Hy Hin. destruct (detect_anomalies_run h y ya tolerance Hy) as (an & Hrun & _).
  eexists _, _. split; [exact Hrun|]. cbn [idx m std].
  split; [apply np_mean_inf, Hin|]. split; [apply np_std_inf with s, Hin|].
  apply where_gt_from_nan, fadd_nan_r, fmul_nan_r, is_nan_binary64.
  apply np_std_inf with s, Hin.
Qed.
End Cell64.

(** ** Further properties of the exponentially weighted statistics *)

Section EwmMeanFacts.
Context {F : Type} `{FloatArith F}.

(** The entry at [i] of the loop is the output of the state after the
    first [i + 1] samples. *)
Lemma ewma_loop_lookup (owf : F) (st : ewma_state) (input : list F) (i : nat) :
  i < length input ->
  ewma_loop owf st input !! i =
    Some (ewma_output (foldl (ewma_step owf) st (take (S i) input))).
Proof.
  revert st i. induction input as [|cur r IH]; intros st i Hi; simpl in *; [lia|].
  destruct i as [|i]; simpl.
  - reflexivity.
  - apply IH. lia.
Qed.

Lemma ewma_output_skip (owf : F) (st : ewma_state) (cur : F) :
  is_observation cur = false ->
  ewma_output (ewma_step owf st cur) = ewma_output st.
Proof.
  intros Hc. unfold ewma_step, ewma_output, count_observation. rewrite Hc.
  destruct (is_observation (weighted_avg st)); simpl; rewrite Nat.add_0_r; reflexivity.
Qed.

Lemma ewma_nobs_skip (owf : F) (st : ewma_state) (l : list F) :
  Forall (fun x => is_observation x = false) l ->
  ewma_nobs (foldl (ewma_step owf) st l) = ewma_nobs st.
Proof.
  intros Hall. revert st. induction Hall as [|cur r Hc _ IH]; intros st; simpl; [reflexivity|].
  rewrite IH. unfold ewma_step, count_observation. rewrite Hc.
  destruct (is_observation (weighted_avg st)); simpl; lia.
Qed.

Lemma ewma_loop_constant (owf : F) (st : ewma_state) (x : F) (n : nat) :
  is_observation x = true -> weighted_avg st = x -> 1 <= ewma_nobs st ->
  ewma_loop owf st (replicate n x) = replicate n x.
Proof.
  intros Hx. revert st. induction n as [|n IH]; intros st Hw Hn; simpl; [reflexivity|].
  assert (Hstep : weighted_avg (ewma_step owf st x) = x /\ 1 <= ewma_nobs (ewma_step owf st x)).
  { unfold ewma_step, count_observation. rewrite Hw, Hx. simpl.
    unfold ewm_update. unfold is_observation in Hx. rewrite Hx. simpl. split; [reflexivity | lia]. }
  destruct Hstep as [Hw' Hn']. f_equal.
  - unfold ewma_output. rewrite Hw'. destruct (decide _); [reflexivity | lia].
  - apply IH; assumption.
Qed.

Lemma ewmcov_loop_lookup (owf : F) (st : ewmcov_state) (input : list (F * F)) (i : nat) :
  i < length input ->
  ewmcov_loop owf st input !! i =
    Some (ewmcov_output (foldl (ewmcov_step owf) st (take (S i) input))).
Proof.
  revert st i. induction input as [|cur r IH]; intros st i Hi; simpl in *; [lia|].
  destruct i as [|i]; simpl.
  - reflexivity.
  - apply IH. lia.
Qed.

(** One step of the two loops on an observed sample, for a running mean
    that is a number. *)
Lemma ewma_step_observed (owf : F) (st : ewma_state) (x : F) :
  is_observation (weighted_avg st) = true -> is_observation x = true ->
  ewma_step owf st x =
    {| weighted_avg := ewm_update (fmul (ewma_old_wt st) owf) (weighted_avg st) x;
       ewma_old_wt := fadd (fmul (ewma_old_wt st) owf) new_wt;
       ewma_nobs := ewma_nobs st + 1 |}.
Proof.
  intros Hm Hx. unfold ewma_step, count_observation. rewrite Hm, Hx. reflexivity.
Qed.

Lemma ewma_nobs_grows (owf : F) (st : ewma_state) (l : list F) :
  ewma_nobs st <= ewma_nobs (foldl (ewma_step owf) st l).
Proof.
  revert st. induction l as [|x l IH]; intros st; simpl; [lia|].
  etransitivity; [|apply IH]. unfold ewma_step.
  destruct (is_observation (weighted_avg st)), (is_observation x); simpl; lia.
Qed.

Lemma ewmcov_nobs_grows (owf : F) (st : ewmcov_state) (l : list (F * F)) :
  nobs st <= nobs (foldl (ewmcov_step owf) st l).
Proof.
  revert st. induction l as [|[x y] l IH]; intros st; simpl; [lia|].
  etransitivity; [|apply IH]. unfold ewmcov_step.
  destruct (is_observation (mean_x st)), (is_observation x && is_observation y); simpl; lia.
Qed.

(** On one series the covariance loop carries the mean and the weight of
    the mean loop. *)
Lemma ewmcov_tracks_ewma (owf : F) (sm : ewma_state) (sc : ewmcov_state) (l : list F) :
  mean_x sc = weighted_avg sm -> mean_y sc = weighted_avg sm ->
  old_wt sc = ewma_old_wt sm ->
  Forall (fun x => is_observation x = true) l ->
  let sm' := foldl (ewma_step owf) sm l in
  let sc' := foldl (ewmcov_step owf) sc (zip l l) in
  mean_x sc' = weighted_avg sm' /\ mean_y sc' = weighted_avg sm' /\
  old_wt sc' = ewma_old_wt sm'.
Proof.
  intros Hx Hy Hw Hall. revert sm sc Hx Hy Hw.
  induction Hall as [|x l Hobs _ IH]; intros sm sc Hx Hy Hw; simpl; [auto|].
  apply IH; unfold ewma_step, ewmcov_step; rewrite Hx, ?Hy, Hw, Hobs; simpl;
    destruct (is_observation (weighted_avg sm)); simpl; try rewrite Hy; reflexivity.
Qed.
Lemma ewmcov_step_observed (owf : F) (st : ewmcov_state) (x : F) :
  is_observation (mean_x st) = true -> is_observation x = true ->
  mean_y st = mean_x st ->
  let mu' := ewm_update (fmul (old_wt st) owf) (mean_x st) x in
  ewmcov_step owf st (x, x) =
    {| mean_x := mu'; mean_y := mu';
       cov := fdiv (fadd (fmul (fmul (old_wt st) owf)
                                (fadd (cov st) (fmul (fsub (mean_x st) mu')
                                                     (fsub (mean_x st) mu'))))
                         (fmul new_wt (fmul (fsub x mu') (fsub x mu'))))
                   (fadd (fmul (old_wt st) owf) new_wt);
       sum_wt := fadd (fmul (sum_wt st) owf) new_wt;
       sum_wt2 := fadd (fmul (sum_wt2 st) (fmul owf owf)) (fmul new_wt new_wt);
       old_wt := fadd (fmul (old_wt st) owf) new_wt;
       nobs := nobs st + 1 |}.
Proof.
  intros Hm Hx Hy. unfold ewmcov_step. rewrite Hm, Hx, Hy. reflexivity.
Qed.

(** The entries of the two sequences as outputs of the loop states. *)
Lemma ewma_lookup_state (x0 : F) (r : list F) (com : F) (i : nat) :
  i <= length r ->
  ewma (x0 :: r) com !! i =
    Some (ewma_output
            (foldl (ewma_step (old_wt_factor com))
                   {| weighted_avg := x0; ewma_old_wt := one;
                      ewma_nobs := count_observation x0 |} (take i r))).
Proof.
  intros Hi. destruct i as [|i]; simpl; [reflexivity|].
  apply ewma_loop_lookup. lia.
Qed.

Lemma ewmcov_lookup_state (x0 : F) (r : list F) (com : F) (i : nat) :
  is_observation x0 = true -> i < length r ->
  ewmcov (x0 :: r) (x0 :: r) com !! (S i) =
    Some (ewmcov_output
            (foldl (ewmcov_step (old_wt_factor com))
                   {| mean_x := x0; mean_y := x0; cov := zero; sum_wt := one;
                      sum_wt2 := one; old_wt := one; nobs := 1 |}
                   (zip (take (S i) r) (take (S i) r)))).
Proof.
  intros H0 Hi. unfold ewmcov. cbn [zip zip_with]. rewrite H0. cbn [andb lookup list_lookup].
  rewrite ewmcov_loop_lookup by (rewrite length_zip; lia).
  do 3 f_equal. apply zip_with_take.
Qed.
Lemma ewma_constant (x com : F) (n : nat) :
  is_observation x = true -> ewma (replicate n x) com = replicate n x.
Proof.
  intros Hx. destruct n as [|n]; [reflexivity|].
  simpl. unfold count_observation. rewrite Hx. f_equal.
  apply ewma_loop_constant; [exact Hx | reflexivity | simpl; lia].
Qed.

Lemma ewma_carries_over (input : list F) (com : F) (i : nat) (c : F) :
  input !! (S i) = Some c -> is_observation c = false ->
  ewma input com !! (S i) = ewma input com !! i.
Proof.
  intros Hc Hobs. destruct input as [|x0 r]; [discriminate|].
  simpl in Hc. simpl.
  pose proof (lookup_lt_Some _ _ _ Hc) as Hlt.
  rewrite ewma_loop_lookup by exact Hlt.
  rewrite (take_S_r _ _ _ Hc), foldl_snoc.
  rewrite ewma_output_skip by exact Hobs.
  destruct i as [|i]; simpl.
  - reflexivity.
  - rewrite ewma_loop_lookup by lia. reflexivity.
Qed.

Lemma ewma_nan_prefix (input : list F) (com : F) (i : nat) :
  i < length input ->
  (forall j x, j <= i -> input !! j = Some x -> is_observation x = false) ->
  ewma input com !! i = Some nan.
Proof.
  intros Hi Hmiss. destruct input as [|x0 r]; [simpl in Hi; lia|].
  assert (H0 : is_observation x0 = false) by (apply (Hmiss 0 x0); [lia | reflexivity]).
  simpl. destruct i as [|i]; simpl.
  - unfold ewma_output, count_observation. simpl. rewrite H0. reflexivity.
  - simpl in Hi. rewrite ewma_loop_lookup by lia.
    unfold ewma_output. rewrite ewma_nobs_skip.
    + unfold count_observation. simpl. rewrite H0. reflexivity.
    + apply Forall_lookup. intros j x Hj.
      apply lookup_take_Some in Hj as [Hj Hlt]. apply (Hmiss (S j) x); [lia | exact Hj].
Qed.

(** Samples that are not infinite pass [_prep_values] unchanged. *)
Lemma prep_values_id (values : list F) :
  Forall (fun x => fisinf x = false) values -> prep_values values = values.
Proof.
  intros Hall. unfold prep_values. induction Hall as [|x r Hx _ IH]; simpl; [reflexivity|].
  rewrite Hx, IH. reflexivity.
Qed.

Lemma prep_values_lookup (values : list F) (i : nat) :
  prep_values values !! i = (fun x => if fisinf x then nan else x) <$> values !! i.
Proof. apply list_lookup_fmap. Qed.

Lemma length_prep_values (values : list F) : length (prep_values values) = length values.
Proof. apply length_map. Qed.
End EwmMeanFacts.

Section EwmMissing.
Context {F : Type} `{FloatLaws F}.

(** A missing sample is still missing after [_prep_values]. *)
Lemma prep_missing (c : F) :
  is_observation c = false -> is_observation (if fisinf c then nan else c) = false.
Proof. intros Hc. destruct (fisinf c); [apply nan_is_nan | exact Hc]. Qed.

(** X9: the exponentially weighted mean of a constant series of finite
    numbers is that constant at every index, exactly and for every centre
    of mass that [ewm] accepts: the update is skipped when the sample equals
    the running mean, so no rounding enters. *)
Theorem ewm_mean_of_constant_series (x com : F) (n : nat) :
  is_observation x = true -> fisinf x = false ->
  get_center_of_mass com = Returned com ->
  ewm_mean (replicate n x) com = replicate n x.
Proof.
  intros Hx Hfin _. unfold ewm_mean.
  rewrite prep_values_id by (apply Forall_replicate, Hfin).
  apply ewma_constant, Hx.
Qed.

(** X10: a missing sample (NaN) after the first index does not show in
    the exponentially weighted mean: the entry there repeats the entry
    before it. *)
Theorem ewm_mean_carries_over_missing (series : list F) (com : F) (i : nat) (c : F) :
  series !! (S i) = Some c -> is_observation c = false ->
  ewm_mean series com !! (S i) = ewm_mean series com !! i.
Proof.
  intros Hc Hobs. unfold ewm_mean. eapply ewma_carries_over.
  - rewrite prep_values_lookup, Hc. reflexivity.
  - apply prep_missing, Hobs.
Qed.

(** X11: the exponentially weighted mean is NaN at every index up to
    which the series holds no observation. *)
Theorem ewm_mean_nan_before_first_observation (series : list F) (com : F) (i : nat) :
  i < length series ->
  (forall j x, j <= i -> series !! j = Some x -> is_observation x = false) ->
  ewm_mean series com !! i = Some nan.
Proof.
  intros Hi Hmiss. unfold ewm_mean. apply ewma_nan_prefix.
  - rewrite length_prep_values. exact Hi.
  - intros j x Hj. rewrite prep_values_lookup.
    destruct (series !! j) as [x'|] eqn:Hx; [|discriminate].
    intros [= <-]. apply prep_missing. eapply Hmiss; eassumption.
Qed.
End EwmMissing.

Section Bands64.
Import Binary64 Binary64Facts Binary64Order.

Lemma zsqrt_valid (x : float64) : valid64 (zsqrt x).
Proof. unfold zsqrt. destruct (fltb x zero); [reflexivity | apply SFsqrt_valid]. Qed.

Lemma zsqrt_sign (x : float64) :
  zsqrt x = S754_nan \/ SFleb (S754_zero false) (zsqrt x) = true.
Proof. unfold zsqrt. destruct (fltb x zero); [right; reflexivity | apply SFsqrt_sign]. Qed.

Lemma ewm_std_sign (series : list float64) (com : float64) (i : nat) (s : float64) :
  ewm_std series com !! i = Some s ->
  s = S754_nan \/ SFleb (S754_zero false) s = true.
Proof.
  unfold ewm_std. rewrite list_lookup_fmap. destruct (ewmcov _ _ com !! i) as [c|];
    [|discriminate].
  intros [= <-]. apply zsqrt_sign.
Qed.

(** X12: every entry of the exponentially weighted standard deviation is
    NaN or at least zero, whatever the samples. *)
Theorem ewm_std_never_negative
    (series : list float64) (com : float64) (i : nat) (s : float64) :
  ewm_std series com !! i = Some s ->
  s = S754_nan \/ fleb zero s = true.
Proof. apply ewm_std_sign. Qed.

Lemma ewm_update_valid (old_wt avg cur : float64) :
  valid64 avg -> valid64 (ewm_update old_wt avg cur).
Proof.
  intros Va. unfold ewm_update. destruct (negb _); [apply SFdiv_valid | exact Va].
Qed.

Lemma ewma_step_valid (owf : float64) (st : @ewma_state float64) (cur : float64) :
  valid64 (@weighted_avg float64 st) -> valid64 cur ->
  valid64 (@weighted_avg float64 (ewma_step owf st cur)).
Proof.
  intros Vs Vc. unfold ewma_step.
  destruct (is_observation (weighted_avg st)); destruct (is_observation cur);
    cbn [weighted_avg]; try assumption. apply ewm_update_valid, Vs.
Qed.

Lemma ewma_output_valid (st : @ewma_state float64) :
  valid64 (@weighted_avg float64 st) -> valid64 (ewma_output st).
Proof. intros Vs. unfold ewma_output. destruct (decide _); [exact Vs | reflexivity]. Qed.

Lemma ewma_loop_valid (owf : float64) (st : @ewma_state float64) (input : list float64) :
  valid64 (@weighted_avg float64 st) -> Forall valid64 input ->
  Forall valid64 (ewma_loop owf st input).
Proof.
  intros Vs Hall. revert st Vs. induction Hall as [|cur r Vc _ IH]; intros st Vs; simpl.
  - constructor.
  - pose proof (ewma_step_valid owf st cur Vs Vc) as V'. constructor.
    + apply ewma_output_valid, V'.
    + apply IH, V'.
Qed.

Lemma ewm_mean_valid (series : list float64) (com : float64) :
  Forall valid64 series -> Forall valid64 (ewm_mean series com).
Proof.
  intros Hall.
  assert (Hprep : Forall valid64 (prep_values series)).
  { unfold prep_values. apply Forall_fmap. eapply Forall_impl; [exact Hall|].
    intros x Vx. simpl. destruct x as [| | |]; [exact Vx | reflexivity | exact Vx | exact Vx]. }
  unfold ewm_mean, ewma. destruct Hprep as [|x0 r V0 Hr]; [constructor|].
  constructor.
  - apply ewma_output_valid, V0.
  - apply ewma_loop_valid; [exact V0 | exact Hr].
Qed.

(** X13: on well-formed samples the two curves of the Bollinger-band
    cell enclose the mean curve: at every drawn index the lower band is NaN
    or at most [rm], and the upper band is NaN or at least [rm]. *)
Theorem bollinger_bands_enclose_mean
    (sensor : list float64) (window_size sample_size i : nat) (lo up : float64) :
  Forall (fun x => fvalid x = true) sensor ->
  let bands := bollinger_bands sensor window_size sample_size in
  fst bands !! i = Some lo -> snd bands !! i = Some up ->
  exists mu, ewm_mean sensor (of_nat window_size) !! (window_size + i)%nat = Some mu /\
    (lo = S754_nan \/ fleb lo mu = true) /\
    (up = S754_nan \/ fleb mu up = true).
Proof.
  intros Hall bands. unfold bands, bollinger_bands, lower_band, upper_band, slice.
  cbv zeta. cbn [fst snd]. rewrite !lookup_zip_with. intros Hlo Hup.
  destruct (take (sample_size - window_size)
              (drop window_size (ewm_mean sensor (of_nat window_size))) !! i)
    as [mu|] eqn:Hmu; [|discriminate].
  destruct (take (sample_size - window_size)
              (drop window_size (ewm_std sensor (of_nat window_size))) !! i)
    as [s|] eqn:Hs; [|discriminate].
  simpl in Hlo, Hup. injection Hlo as <-. injection Hup as <-.
  apply lookup_take_Some in Hmu as [Hmu _]. rewrite lookup_drop in Hmu.
  apply lookup_take_Some in Hs as [Hs _]. rewrite lookup_drop in Hs.
  exists mu. split; [exact Hmu|].
  assert (Vm : valid64 mu).
  { pose proof (ewm_mean_valid sensor (of_nat window_size) Hall) as Hv.
    rewrite Forall_lookup in Hv. eapply Hv, Hmu. }
  assert (Vs : valid64 s).
  { unfold ewm_std in Hs. rewrite list_lookup_fmap in Hs.
    destruct (ewmcov _ _ _ !! _); [|discriminate]. injection Hs as <-. apply zsqrt_valid. }
  exact (band_entry mu s (of_Z 2) Vm Vs eq_refl eq_refl (ewm_std_sign _ _ _ _ Hs)).
Qed.
End Bands64.

Section BandShape.
Context {F : Type} `{FloatLaws F}.

(** X14: the two bands have [min(sample_size, n) - window_size] points
    for a series of [n] samples, so the cell draws nothing, and raises
    nothing, when the series or the sample range is not longer than the
    window. *)
Theorem bollinger_bands_length (sensor : list F) (window_size sample_size : nat) :
  let bands := bollinger_bands sensor window_size sample_size in
  length (fst bands) = min sample_size (length sensor) - window_size /\
  length (snd bands) = min sample_size (length sensor) - window_size.
Proof.
  unfold bollinger_bands, lower_band, upper_band, slice, ewm_mean, ewm_std. cbv zeta. cbn [fst snd].
  rewrite !length_zip_with, !length_take, !length_drop, length_map, length_ewma,
    length_ewmcov, length_prep_values.
  lia.
Qed.
End BandShape.

(** ** The recurrence of the exponentially weighted statistics *)

Section Recurrence64.
Import Binary64 Binary64Facts.

Lemma finite_is_observation (x : float64) : np_isfinite x = true -> is_observation x = true.
Proof.
  intros Hx. unfold is_observation. simpl. unfold SFeqb.
  rewrite SFcompare_refl; [reflexivity|]. intros ->. discriminate.
Qed.

Lemma prep_values_idem (values : list float64) :
  prep_values (prep_values values) = prep_values values.
Proof.
  apply prep_values_id, Forall_fmap, Forall_true. intros x. simpl.
  destruct x as [| | |]; reflexivity.
Qed.

Lemma finite_not_inf (x : float64) : np_isfinite x = true -> fisinf x = false.
Proof. destruct x as [| | |]; simpl; congruence. Qed.

(** C3, amended: with a window [w] the statistics at index [i] are pandas'
    exponentially weighted mean and standard deviation with centre of mass
    [w], which [ewm] accepts; they are computed from all samples up to [i]
    and not from the trailing [w] samples.  On finite samples both
    sequences have the length of the series, the mean starts at the first
    sample and the standard deviation at NaN, and from one index to the
    next, while the mean is a number, the weight [wt] grows to
    [wt * (1 - alpha) + 1] with [alpha = 1 / (1 + w)], the mean becomes the
    weighted average of the old mean and the new sample (and stays as it is
    when the sample equals it), and the standard deviation is the square
    root of the bias-corrected weighted variance; infinite samples count
    as missing ones.  From the statistics the cell forms the two curves
    [rm[i] - 2 * rstd[i]] and [rm[i] + 2 * rstd[i]] for the indices
    [w <= i < sample_size], with the fixed factor 2 in place of a
    tolerance. *)
Theorem ewm_statistics_weigh_all_samples
    (sensor : list float64) (window_size sample_size : nat) :
  Forall (fun x => np_isfinite x = true) sensor ->
  let com := of_nat window_size in
  let owf := fsub one (fdiv one (fadd one com)) in
  let rm := ewm_mean sensor com in
  let rstd := ewm_std sensor com in
  let bands := bollinger_bands sensor window_size sample_size in
  get_center_of_mass com = Returned com /\
  length rm = length sensor /\ length rstd = length sensor /\
  (forall raw : list float64,
     let missing := map (fun x => if fisinf x then nan else x) raw in
     ewm_mean raw com = ewm_mean missing com /\
     ewm_std raw com = ewm_std missing com) /\
  rm !! 0 = sensor !! 0 /\
  (forall s, rstd !! 0 = Some s -> s = nan) /\
  (exists wt cov sw sw2 : list float64,
     length wt = length sensor /\ length cov = length sensor /\
     length sw = length sensor /\ length sw2 = length sensor /\
     (forall w c a b, wt !! 0 = Some w -> cov !! 0 = Some c -> sw !! 0 = Some a ->
                      sw2 !! 0 = Some b -> w = one /\ c = zero /\ a = one /\ b = one) /\
     forall i x w c a b mu,
       sensor !! (S i) = Some x ->
       wt !! i = Some w -> cov !! i = Some c -> sw !! i = Some a -> sw2 !! i = Some b ->
       rm !! i = Some mu -> feqb mu mu = true ->
       let w' := fmul w owf in
       let mu' := if feqb mu x then mu
                  else fdiv (fadd (fmul w' mu) (fmul one x)) (fadd w' one) in
       let c' := fdiv (fadd (fmul w' (fadd c (fmul (fsub mu mu') (fsub mu mu'))))
                            (fmul one (fmul (fsub x mu') (fsub x mu'))))
                      (fadd w' one) in
       let a' := fadd (fmul a owf) one in
       let b' := fadd (fmul b (fmul owf owf)) (fmul one one) in
       let num := fmul a' a' in
       let den := fsub num b' in
       let var := if fltb zero den then fmul (fdiv num den) c' else nan in
       wt !! (S i) = Some (fadd w' one) /\ cov !! (S i) = Some c' /\
       sw !! (S i) = Some a' /\ sw2 !! (S i) = Some b' /\
       rm !! (S i) = Some mu' /\
       rstd !! (S i) = Some (if fltb var zero then zero else fsqrt var)) /\
  (forall k, fst bands !! k =
     if decide (window_size + k < sample_size)
     then mu ← rm !! (window_size + k); s ← rstd !! (window_size + k);
          Some (fsub mu (fmul (of_nat 2) s))
     else None) /\
  (forall k, snd bands !! k =
     if decide (window_size + k < sample_size)
     then mu ← rm !! (window_size + k); s ← rstd !! (window_size + k);
          Some (fadd mu (fmul (of_nat 2) s))
     else None).
Proof.
  intros Hfin com owf rm rstd bands.
  assert (Hprep : prep_values sensor = sensor).
  { apply prep_values_id. eapply Forall_impl; [exact Hfin|]. apply finite_not_inf. }
  assert (Hobs : Forall (fun x : float64 => is_observation x = true) sensor).
  { eapply Forall_impl; [exact Hfin|]. apply finite_is_observation. }
  assert (Hrm : rm = ewma sensor com) by (unfold rm, ewm_mean; rewrite Hprep; reflexivity).
  assert (Hrstd : rstd = map zsqrt (ewmcov sensor sensor com))
    by (unfold rstd, ewm_std; rewrite Hprep; reflexivity).
  assert (Hbands : forall (op : float64 -> float64 -> float64) k,
            zip_with (fun mu s => op mu (fmul (of_nat 2) s))
                     (slice rm window_size sample_size)
                     (slice rstd window_size sample_size) !! k =
            if decide (window_size + k < sample_size)
            then mu ← rm !! (window_size + k); s ← rstd !! (window_size + k);
                 Some (op mu (fmul (of_nat 2) s))
            else None).
  { intros op k. rewrite lookup_zip_with. unfold slice.
    destruct (decide (window_size + k < sample_size)) as [Hk|Hk].
    - rewrite !lookup_take_lt, !lookup_drop by lia. reflexivity.
    - rewrite !lookup_take_ge by lia. reflexivity. }
  split.
  { unfold get_center_of_mass, com.
    assert (Hs : fltb (of_nat window_size) zero = false).
    { destruct (Binary64Infinite.of_nat_shape window_size) as [E|[E|(mz & ez & E)]];
        simpl; rewrite E; reflexivity. }
    rewrite Hs. reflexivity. }
  split; [rewrite Hrm; apply length_ewma|].
  split; [rewrite Hrstd, length_map; apply length_ewmcov|].
  split.
  { intros raw missing. unfold ewm_mean, ewm_std.
    change (prep_values missing) with (prep_values (prep_values raw)).
    rewrite prep_values_idem. split; reflexivity. }
  split; [rewrite Hrm; destruct sensor as [|x0 r]; [reflexivity|];
          simpl; unfold ewma_output, count_observation;
          rewrite (Forall_inv Hobs); reflexivity|].
  split.
  { intros s. rewrite Hrstd. destruct sensor as [|x0 r]; [discriminate|].
    simpl. intros [= <-]. reflexivity. }
  split; [|split; [intros k; apply (Hbands fsub) | intros k; apply (Hbands fadd)]].
  clear Hbands bands. destruct sensor as [|x0 r].
  { exists [], [], [], []. repeat (split; [reflexivity|]).
    split; [intros; discriminate|]. intros; discriminate. }
  pose proof (Forall_inv Hobs) as H0. pose proof (Forall_inv_tail Hobs) as Hr.
  set (sm0 := {| weighted_avg := x0; ewma_old_wt := one;
                 ewma_nobs := count_observation x0 |} : @ewma_state float64).
  set (sc0 := {| mean_x := x0; mean_y := x0; cov := zero; sum_wt := one;
                 sum_wt2 := one; old_wt := one; nobs := 1 |} : @ewmcov_state float64).
  set (sm := fun i => foldl (ewma_step (old_wt_factor com)) sm0 (take i r)).
  set (sc := fun i => foldl (ewmcov_step (old_wt_factor com)) sc0 (zip (take i r) (take i r))).
  set (ix := seq 0 (S (length r))).
  exists (map (fun i => ewma_old_wt (sm i)) ix), (map (fun i => cov (sc i)) ix),
         (map (fun i => sum_wt (sc i)) ix), (map (fun i => sum_wt2 (sc i)) ix).
  repeat (split; [unfold ix; rewrite length_map, length_seq; reflexivity|]).
  split.
  { intros w c a b. simpl. intros [= <-] [= <-] [= <-] [= <-]. repeat split. }
  intros i x w c a b mu Hx Hw Hc Ha Hb Hmu Hnum.
  simpl in Hx. pose proof (lookup_lt_Some _ _ _ Hx) as Hi.
  assert (Hix : forall (f : nat -> float64) j, j <= length r -> map f ix !! j = Some (f j)).
  { intros f j Hj. unfold ix. rewrite list_lookup_fmap, lookup_seq_lt by lia. reflexivity. }
  rewrite Hix in Hw, Hc, Ha, Hb by lia.
  injection Hw as <-. injection Hc as <-. injection Ha as <-. injection Hb as <-.
  rewrite !Hix by lia.
  assert (Hn : 1 <= ewma_nobs (sm i)).
  { etransitivity; [|apply ewma_nobs_grows]. unfold sm0, count_observation. simpl.
    unfold is_observation in H0. simpl in H0. rewrite H0. lia. }
  assert (Hnc : 1 <= nobs (sc i)) by (etransitivity; [|apply ewmcov_nobs_grows]; simpl; lia).
  assert (Hmu' : mu = weighted_avg (sm i)).
  { rewrite Hrm, ewma_lookup_state in Hmu by lia. injection Hmu as <-.
    unfold ewma_output. fold sm0. fold (sm i). rewrite decide_True by exact Hn. reflexivity. }
  destruct (ewmcov_tracks_ewma (old_wt_factor com) sm0 sc0 (take i r)
              eq_refl eq_refl eq_refl) as (Tx & Ty & Tw).
  { apply Forall_take, Hr. }
  fold (sm i) in Tx, Ty, Tw. fold (sc i) in Tx, Ty, Tw.
  assert (Hxobs : is_observation x = true).
  { rewrite Forall_lookup in Hr. eapply Hr, Hx. }
  assert (Hsm : sm (S i) = ewma_step (old_wt_factor com) (sm i) x).
  { unfold sm. rewrite (take_S_r _ _ _ Hx), foldl_snoc. reflexivity. }
  assert (Hsc : sc (S i) = ewmcov_step (old_wt_factor com) (sc i) (x, x)).
  { unfold sc. rewrite (take_S_r _ _ _ Hx).
    assert (Hz : zip (take i r ++ [x]) (take i r ++ [x]) = zip (take i r) (take i r) ++ [(x, x)])
      by exact (zip_with_app pair (take i r) [x] (take i r) [x] eq_refl).
    rewrite Hz, foldl_snoc. reflexivity. }
  rewrite ewma_step_observed in Hsm by (rewrite <- ?Hmu'; assumption).
  rewrite ewmcov_step_observed in Hsc
    by (rewrite ?Tx, ?Ty, <- ?Hmu'; first [assumption | reflexivity]).
  cbv zeta in Hsc. rewrite Tx, Tw, <- Hmu' in Hsc. rewrite <- Hmu' in Hsm.
  assert (Hup : ewm_update (fmul (ewma_old_wt (sm i)) owf) mu x =
                if feqb mu x then mu
                else fdiv (fadd (fmul (fmul (ewma_old_wt (sm i)) owf) mu) (fmul one x))
                          (fadd (fmul (ewma_old_wt (sm i)) owf) one)).
  { unfold ewm_update. destruct (feqb mu x); reflexivity. }
  change (old_wt_factor com) with owf in Hsm, Hsc. rewrite Hup in Hsm, Hsc.
  cbv zeta. rewrite Hsm, Hsc. cbn [ewma_old_wt cov sum_wt sum_wt2].
  split; [reflexivity|]. split; [reflexivity|]. split; [reflexivity|]. split; [reflexivity|].
  split.
  - rewrite Hrm, ewma_lookup_state by lia. fold sm0. fold (sm (S i)). rewrite Hsm.
    unfold ewma_output. cbn [ewma_nobs weighted_avg]. rewrite decide_True by lia. reflexivity.
  - rewrite Hrstd, list_lookup_fmap, ewmcov_lookup_state by assumption.
    fold sc0. fold (sc (S i)). rewrite Hsc. unfold ewmcov_output.
    cbn [nobs sum_wt sum_wt2 cov]. rewrite decide_True by lia. reflexivity.
Qed.
End Recurrence64.

(** ** Lag curves *)

Section LagFacts.
Context {F : Type} `{FloatArith F}.

(** X15: the lag curve [df_s[sensor][:sample_size].shift(-k)] has as many
    points as the slice; its entry at [i] is the sample at [i + k] while
    that lies inside the slice, and NaN from there on, also where the
    series has samples beyond the slice. *)
Theorem lag_curve_lookup (sensor : list F) (sample_size k i : nat) :
  let n := min sample_size (length sensor) in
  length (lag_curve sensor sample_size k) = n /\
  (i + k < n -> lag_curve sensor sample_size k !! i = sensor !! (i + k)) /\
  (i < n -> n <= i + k -> lag_curve sensor sample_size k !! i = Some nan).
Proof.
  unfold lag_curve, shift_back, slice. cbv zeta. rewrite drop_0, Nat.sub_0_r.
  assert (Hlen : length (take sample_size sensor) = min sample_size (length sensor))
    by apply length_take.
  split; [|split].
  - rewrite length_app, length_drop, length_replicate, Hlen. lia.
  - intros Hi. rewrite lookup_app_l by (rewrite length_drop, Hlen; lia).
    rewrite lookup_drop, lookup_take_lt by lia. f_equal. lia.
  - intros Hi Hk. rewrite lookup_app_r by (rewrite length_drop, Hlen; lia).
    apply lookup_replicate_2. rewrite length_drop, Hlen. lia.
Qed.
End LagFacts.

(** ** Rolling windows *)

Section RollingFacts.
Variable func : list Binary64.float64 -> Binary64.float64.

Lemma count_finite_le (win : list Binary64.float64) : count_finite win <= length win.
Proof. unfold count_finite. apply List.filter_length_le. Qed.

Lemma count_finite_all (win : list Binary64.float64) :
  count_finite win = length win <-> Forall (fun x => np_isfinite x = true) win.
Proof.
  unfold count_finite. induction win as [|x r IH]; simpl.
  - split; [constructor | reflexivity].
  - destruct (np_isfinite x) eqn:E; simpl.
    + split.
      * intros [= Hl]. constructor; [exact E | apply IH, Hl].
      * intros Hall. inversion Hall; subst. f_equal. apply IH. assumption.
    + pose proof (List.filter_length_le np_isfinite r). split; [lia|].
      intros Hall. inversion Hall; subst. congruence.
Qed.

Lemma length_slice (a : list Binary64.float64) (lo hi : nat) :
  length (slice a lo hi) = min (hi - lo) (length a - lo).
Proof. unfold slice. rewrite length_take, length_drop. reflexivity. Qed.

Lemma rolling_apply_lookup (window : nat) (series : list Binary64.float64) (i : nat) :
  i < length series ->
  rolling_apply func window series !! i =
    Some (let win := slice series (i + 1 - window) (i + 1) in
          if decide (window <= count_finite win) then func win else nan).
Proof.
  intros Hi. unfold rolling_apply. rewrite list_lookup_fmap, lookup_seq_lt by exact Hi.
  reflexivity.
Qed.

(** X16: [series.rolling(window).apply(func)] keeps the length of the
    series; its first [window - 1] entries are NaN; from there on the entry
    at [i] is [func] of exactly the [window] samples ending at [i] when all
    of them are finite, and NaN when one of them is NaN or infinite. *)
Theorem rolling_apply_windows (window : nat) (series : list Binary64.float64) (i : nat) :
  1 <= window -> i < length series ->
  length (rolling_apply func window series) = length series /\
  (i + 1 < window -> rolling_apply func window series !! i = Some nan) /\
  (window <= i + 1 ->
   let win := slice series (i + 1 - window) (i + 1) in
   length win = window /\
   (Forall (fun x => np_isfinite x = true) win ->
    rolling_apply func window series !! i = Some (func win)) /\
   (~ Forall (fun x => np_isfinite x = true) win ->
    rolling_apply func window series !! i = Some nan)).
Proof.
  intros Hw Hi. split; [|split].
  - unfold rolling_apply. rewrite length_map, length_seq. reflexivity.
  - intros Hsmall. rewrite rolling_apply_lookup by exact Hi. cbv zeta.
    destruct (decide _) as [Hc|_]; [|reflexivity]. exfalso.
    pose proof (count_finite_le (slice series (i + 1 - window) (i + 1))) as Hle.
    rewrite length_slice in Hle. lia.
  - intros Hbig win.
    assert (Hlen : length win = window).
    { unfold win. rewrite length_slice. lia. }
    split; [exact Hlen|]. rewrite rolling_apply_lookup by exact Hi. cbv zeta. fold win.
    pose proof (count_finite_le win) as Hle.
    split; intros Hall.
    + apply count_finite_all in Hall. destruct (decide _) as [_|Hc]; [reflexivity | lia].
    + destruct (decide _) as [Hc|_]; [|reflexivity]. exfalso. apply Hall.
      apply count_finite_all. lia.
Qed.

(** X17: for a window of at least one sample, a rolling statistic at [i]
    depends on the [window] samples ending at [i] and on nothing else: two
    series of the same length that agree on them have the same entry at
    [i].  (The exponentially weighted mean does not have this property.) *)
Theorem rolling_apply_local (window : nat) (xs ys : list Binary64.float64) (i : nat) :
  1 <= window -> length xs = length ys ->
  (forall j, i + 1 - window <= j <= i -> xs !! j = ys !! j) ->
  rolling_apply func window xs !! i = rolling_apply func window ys !! i.
Proof.
  intros _ Hlen Hsame. destruct (decide (i < length xs)) as [Hi|Hi].
  - rewrite !rolling_apply_lookup by lia. cbv zeta.
    assert (Hwin : slice xs (i + 1 - window) (i + 1) = slice ys (i + 1 - window) (i + 1)).
    { unfold slice. apply list_eq. intros j.
      destruct (decide (j < i + 1 - (i + 1 - window))) as [Hj|Hj].
      - rewrite !lookup_take_lt, !lookup_drop by exact Hj. apply Hsame. lia.
      - rewrite !lookup_take_ge by lia. reflexivity. }
    rewrite Hwin. reflexivity.
  - unfold rolling_apply. rewrite !list_lookup_fmap, !lookup_seq_ge by lia. reflexivity.
Qed.
End RollingFacts.

(** ** The figure panel *)

Section PanelFacts.

Lemma panel_of_sensor_injective (s s' : nat) (rc : nat * nat) :
  panel_of_sensor s = Returned rc -> panel_of_sensor s' = Returned rc -> s = s'.
Proof.
  unfold panel_of_sensor, ax_lookup, panel_cell. cbn [fst snd].
  pose proof (Nat.div_mod_eq s 2). pose proof (Nat.div_mod_eq s' 2).
  destruct (decide _); [|discriminate]. destruct (decide _); [|discriminate].
  intros [= <-] [= E1 E2].
  change (s' / 2 = s / 2) in E1. change (s' mod 2 = s mod 2) in E2. lia.
Qed.

(** X18: the loops over [enumerate(sensors)] give each of the first four
    sensors a panel of its own in the 2 x 2 figure, filled row by row
    ([s = 2 * r + c]); a fifth sensor raises [IndexError]. *)
Theorem panel_of_sensor_spec (s : nat) :
  (s < 4 -> exists r c, panel_of_sensor s = Returned (r, c) /\
                        r < 2 /\ c < 2 /\ s = 2 * r + c) /\
  (4 <= s -> panel_of_sensor s = Raised IndexError) /\
  (forall s' rc, panel_of_sensor s = Returned rc -> panel_of_sensor s' = Returned rc ->
                 s = s').
Proof.
  split; [|split].
  - unfold panel_of_sensor, ax_lookup, panel_cell. cbn [fst snd].
    pose proof (Nat.div_mod_eq s 2) as Hs.
    pose proof (Nat.mod_upper_bound s 2 ltac:(lia)) as Hm.
    intros H4. exists (s / 2), (s mod 2). destruct (decide _) as [[Hr Hc]|Hn].
    + repeat split; [exact Hr | exact Hc | lia].
    + exfalso. apply Hn. split; lia.
  - unfold panel_of_sensor, ax_lookup, panel_cell. cbn [fst snd].
    pose proof (Nat.div_mod_eq s 2) as Hs.
    intros H4. destruct (decide _) as [[Hr Hc]|Hn]; [lia | reflexivity].
  - intros s' rc. apply panel_of_sensor_injective.
Qed.
End PanelFacts.

(** ** Concrete runs *)

Module Examples64.
Import Binary64.


(** C3 fails on the code: with [w = 3] on 1, 2, 4, 8 the mean and the
    standard deviation at index 1, inside the first [w - 1] entries, are
    numbers, and the mean at index 3 changes with the sample at index 0,
    which lies outside the last three samples.  With [w = 12] on thirteen
    samples 1 and a sample 100, the sample at index 13 lies above the upper
    curve there: the cell draws the curve and no more. *)
Lemma ewm_statistics_are_not_windowed :
  (1 < 3 - 1)%nat /\
  (exists mu s, ewm_mean s4 (of_nat 3) !! 1%nat = Some mu /\
                ewm_std s4 (of_nat 3) !! 1%nat = Some s /\
                ~ is_nan mu /\ ~ is_nan s) /\
  ewm_mean (of_Z 100 :: tail s4) (of_nat 3) !! 3%nat <> ewm_mean s4 (of_nat 3) !! 3%nat /\
  (exists up, spike !! 13%nat = Some (of_Z 100) /\
              snd (bollinger_bands spike 12 14) !! 1%nat = Some up /\
              fltb up (of_Z 100) = true).
Proof.
  split; [lia|]. split; [|split].
  - eexists _, _. split; [vm_compute; reflexivity|]. split; [vm_compute; reflexivity|].
    split; vm_compute; discriminate.
  - vm_compute. discriminate.
  - eexists. split; [reflexivity|]. split; [vm_compute; reflexivity|]. vm_compute. reflexivity.
Qed.



Lemma nan_in_series_flags_nothing_witness :
  [with_nan] !! 0%nat = Some with_nan /\
  (exists i x, with_nan !! i = Some x /\ is_nan x) /\
  exists v h',
    detect_anomalies 0 (of_Z 4) [with_nan] = Returned (v, h') /\
    is_nan (m v) /\ is_nan (std v) /\ is_nan (threshold (of_Z 4) v) /\
    idx v = [].
Proof.
  assert (Hnan : exists i x, with_nan !! i = Some x /\ is_nan x).
  { exists 1%nat, S754_nan. split; reflexivity. }
  split; [reflexivity|]. split; [exact Hnan|].
  apply (nan_in_series_flags_nothing [with_nan] 0 with_nan (of_Z 4)); [reflexivity | exact Hnan].
Defined.

Lemma anoms_holds_flagged_values_witness :
  [y3] !! 0%nat = Some y3 /\
  exists v h' an,
    detect_anomalies 0 (of_Z 1) [y3] = Returned (v, h') /\
    h' !! anoms v = Some an /\
    length an = length y3 /\
    (forall i, i ∈ idx v -> an !! i = y3 !! i) /\
    (forall i, i < length y3 -> i ∉ idx v -> an !! i = Some nan) /\
    h' !! 0%nat = Some y3 /\
    (forall l, l < length [y3] -> h' !! l = [y3] !! l).
Proof.
  split; [reflexivity|].
  apply (anoms_holds_flagged_values [y3] 0 y3 (of_Z 1)). reflexivity.
Defined.

Lemma ewm_statistics_weigh_all_samples_witness :
  Forall (fun x => np_isfinite x = true) s4 /\
  (let com := of_nat 3 in
  let owf := fsub one (fdiv one (fadd one com)) in
  let rm := ewm_mean s4 com in
  let rstd := ewm_std s4 com in
  let bands := bollinger_bands s4 3 4 in
  get_center_of_mass com = Returned com /\
  length rm = length s4 /\ length rstd = length s4 /\
  (forall raw : list float64,
     let missing := map (fun x => if fisinf x then nan else x) raw in
     ewm_mean raw com = ewm_mean missing com /\
     ewm_std raw com = ewm_std missing com) /\
  rm !! 0 = s4 !! 0 /\
  (forall s, rstd !! 0 = Some s -> s = nan) /\
  (exists wt cov sw sw2 : list float64,
     length wt = length s4 /\ length cov = length s4 /\
     length sw = length s4 /\ length sw2 = length s4 /\
     (forall w c a b, wt !! 0 = Some w -> cov !! 0 = Some c -> sw !! 0 = Some a ->
                      sw2 !! 0 = Some b -> w = one /\ c = zero /\ a = one /\ b = one) /\
     forall i x w c a b mu,
       s4 !! (S i) = Some x ->
       wt !! i = Some w -> cov !! i = Some c -> sw !! i = Some a -> sw2 !! i = Some b ->
       rm !! i = Some mu -> feqb mu mu = true ->
       let w' := fmul w owf in
       let mu' := if feqb mu x then mu
                  else fdiv (fadd (fmul w' mu) (fmul one x)) (fadd w' one) in
       let c' := fdiv (fadd (fmul w' (fadd c (fmul (fsub mu mu') (fsub mu mu'))))
                            (fmul one (fmul (fsub x mu') (fsub x mu'))))
                      (fadd w' one) in
       let a' := fadd (fmul a owf) one in
       let b' := fadd (fmul b (fmul owf owf)) (fmul one one) in
       let num := fmul a' a' in
       let den := fsub num b' in
       let var := if fltb zero den then fmul (fdiv num den) c' else nan in
       wt !! (S i) = Some (fadd w' one) /\ cov !! (S i) = Some c' /\
       sw !! (S i) = Some a' /\ sw2 !! (S i) = Some b' /\
       rm !! (S i) = Some mu' /\
       rstd !! (S i) = Some (if fltb var zero then zero else fsqrt var)) /\
  (forall k, fst bands !! k =
     if decide (3 + k < 4)
     then mu ← rm !! (3 + k); s ← rstd !! (3 + k);
          Some (fsub mu (fmul (of_nat 2) s))
     else None) /\
  (forall k, snd bands !! k =
     if decide (3 + k < 4)
     then mu ← rm !! (3 + k); s ← rstd !! (3 + k);
          Some (fadd mu (fmul (of_nat 2) s))
     else None)) /\
  ewm_mean s4 (of_nat 3) =
    [S754_finite false 4503599627370496 (-52); S754_finite false 7077085128725065 (-52);
     S754_finite false 5903367079120785 (-51); S754_finite false 5166272143969298 (-50)] /\
  ewm_std s4 (of_nat 3) =
    [S754_nan; S754_finite false 6369051672525773 (-53);
     S754_finite false 7043413770613433 (-52); S754_finite false 7346827705967885 (-51)] /\
  ewm_mean [S754_infinity false; of_Z 1] (of_nat 3) = [S754_nan; of_Z 1].
Proof.
  assert (Hfin : Forall (fun x => np_isfinite x = true) s4) by (repeat constructor).
  split; [exact Hfin|].
  split; [exact (ewm_statistics_weigh_all_samples s4 3 4 Hfin)|].
  split; [vm_compute; reflexivity|]. split; vm_compute; reflexivity.
Defined.

Lemma larger_tolerance_flags_fewer_witness :
  [y3] !! 0%nat = Some y3 /\
  fvalid (of_Z 1) = true /\ fvalid (of_Z 2) = true /\
  fltb zero (of_Z 1) = true /\ fltb (of_Z 1) (of_Z 2) = true /\
  exists v1 h1 v2 h2,
    detect_anomalies 0 (of_Z 1) [y3] = Returned (v1, h1) /\
    detect_anomalies 0 (of_Z 2) [y3] = Returned (v2, h2) /\
    idx v2 ⊆ idx v1.
Proof.
  split; [reflexivity|]. split; [reflexivity|]. split; [reflexivity|].
  split; [reflexivity|]. split; [reflexivity|].
  apply (larger_tolerance_flags_fewer [y3] 0 y3 (of_Z 1) (of_Z 2)); reflexivity.
Defined.
End Examples64.

(** ** Concrete runs of the further properties *)

Module MoreExamples64.
Import Binary64.

Lemma idx_strictly_increasing_witness :
  [y3] !! 0%nat = Some y3 /\
  exists v h', detect_anomalies 0 (of_Z (-1)) [y3] = Returned (v, h') /\
    (forall p j, idx v !! p = Some j -> j < length y3) /\
    (forall p q j k, idx v !! p = Some j -> idx v !! q = Some k -> p < q -> j < k).
Proof.
  split; [reflexivity|].
  apply (idx_strictly_increasing [y3] 0 y3 (of_Z (-1))). reflexivity.
Defined.

Lemma anoms_number_iff_flagged_witness :
  [y3] !! 0%nat = Some y3 /\
  exists v h' an, detect_anomalies 0 (of_Z 1) [y3] = Returned (v, h') /\
    h' !! anoms v = Some an /\
    forall i, i < length y3 ->
      exists a, an !! i = Some a /\ (~ is_nan a <-> i ∈ idx v).
Proof.
  split; [reflexivity|].
  apply (anoms_number_iff_flagged [y3] 0 y3 (of_Z 1)). reflexivity.
Defined.

Lemma anoms_orig_is_independent_copy_witness :
  [y3] !! 0%nat = Some y3 /\
  exists v h' an, detect_anomalies 0 (of_Z 1) [y3] = Returned (v, h') /\
    h' !! anoms v = Some an /\ h' !! anoms_orig v = Some an /\
    anoms_orig v <> anoms v /\ anoms_orig v <> 0%nat /\ anoms v <> 0%nat /\
    forall idx2 vs h2, np_put (anoms v) idx2 vs h' = Returned (tt, h2) ->
      h2 !! anoms_orig v = Some an /\ h2 !! 0%nat = Some y3.
Proof.
  split; [reflexivity|].
  apply (anoms_orig_is_independent_copy [y3] 0 y3 (of_Z 1)). reflexivity.
Defined.

Lemma nan_tolerance_flags_nothing_witness :
  [y3] !! 0%nat = Some y3 /\ is_nan (S754_nan : float64) /\
  exists v h' an, detect_anomalies 0 S754_nan [y3] = Returned (v, h') /\
    idx v = [] /\ h' !! anoms v = Some an /\ an = replicate (length y3) nan.
Proof.
  split; [reflexivity|]. split; [reflexivity|].
  apply (nan_tolerance_flags_nothing [y3] 0 y3 S754_nan); reflexivity.
Defined.

Lemma empty_series_flags_nothing_witness :
  [[]] !! 0%nat = Some ([] : list float64) /\
  exists v h', detect_anomalies 0 (of_Z 4) [[]] = Returned (v, h') /\
    m v = S754_nan /\ std v = S754_nan /\ idx v = [] /\
    h' !! anoms v = Some [] /\ h' !! anoms_orig v = Some [].
Proof.
  split; [reflexivity|].
  apply (empty_series_flags_nothing [[]] 0 (of_Z 4)). reflexivity.
Defined.

Lemma flagged_values_exceed_mean_witness :
  [y3] !! 0%nat = Some y3 /\
  fvalid (of_Z 1) = true /\ fltb zero (of_Z 1) = true /\
  exists v h', detect_anomalies 0 (of_Z 1) [y3] = Returned (v, h') /\
    forall i, i ∈ idx v -> exists x, y3 !! i = Some x /\ fltb (m v) x = true.
Proof.
  split; [reflexivity|]. split; [reflexivity|]. split; [reflexivity|].
  apply (flagged_values_exceed_mean [y3] 0 y3 (of_Z 1)); reflexivity.
Defined.

Lemma value_at_threshold_not_flagged_witness :
  [y3] !! 0%nat = Some y3 /\
  exists v h', detect_anomalies 0 (of_Z 0) [y3] = Returned (v, h') /\
    forall i x, y3 !! i = Some x -> feqb x (threshold (of_Z 0) v) = true -> i ∉ idx v.
Proof.
  split; [reflexivity|].
  apply (value_at_threshold_not_flagged [y3] 0 y3 (of_Z 0)). reflexivity.
Defined.

Lemma infinite_value_flags_nothing_witness :
  [with_inf] !! 0%nat = Some with_inf /\
  S754_infinity false ∈ with_inf /\
  exists v h', detect_anomalies 0 (of_Z 4) [with_inf] = Returned (v, h') /\
    (m v = S754_infinity false \/ m v = S754_nan) /\ std v = S754_nan /\ idx v = [].
Proof.
  assert (Hin : S754_infinity false ∈ with_inf).
  { apply (list_elem_of_lookup_2 _ 1%nat). reflexivity. }
  split; [reflexivity|]. split; [exact Hin|].
  apply (infinite_value_flags_nothing [with_inf] 0 with_inf (of_Z 4) false);
    [reflexivity | exact Hin].
Defined.

Lemma ewm_mean_of_constant_series_witness :
  is_observation (of_Z 5) = true /\ fisinf (of_Z 5) = false /\
  get_center_of_mass (of_Z 12) = Returned (of_Z 12) /\
  ewm_mean (replicate 3 (of_Z 5)) (of_Z 12) = replicate 3 (of_Z 5).
Proof.
  split; [reflexivity|]. split; [reflexivity|]. split; [reflexivity|].
  apply (ewm_mean_of_constant_series (of_Z 5) (of_Z 12) 3); reflexivity.
Defined.

Lemma ewm_mean_carries_over_missing_witness :
  with_nan !! 1%nat = Some S754_nan /\
  is_observation (S754_nan : float64) = false /\
  ewm_mean with_nan (of_Z 12) !! 1%nat = ewm_mean with_nan (of_Z 12) !! 0%nat.
Proof.
  split; [reflexivity|]. split; [reflexivity|].
  apply (ewm_mean_carries_over_missing with_nan (of_Z 12) 0 S754_nan); reflexivity.
Defined.

Lemma ewm_mean_nan_before_first_observation_witness :
  1 < length late_start /\
  (forall j x, j <= 1 -> late_start !! j = Some x -> is_observation x = false) /\
  ewm_mean late_start (of_Z 12) !! 1%nat = Some nan.
Proof.
  assert (Hmiss : forall j x, j <= 1 -> late_start !! j = Some x -> is_observation x = false).
  { intros [|[|j]] x Hj; [| |lia]; intros [= <-]; reflexivity. }
  split; [simpl; lia|]. split; [exact Hmiss|].
  apply (ewm_mean_nan_before_first_observation late_start (of_Z 12) 1); [simpl; lia | exact Hmiss].
Defined.

Lemma ewm_std_never_negative_witness :
  exists s, ewm_std s4 (of_Z 3) !! 1%nat = Some s /\
            (s = S754_nan \/ fleb zero s = true).
Proof.
  eexists. split; [vm_compute; reflexivity|].
  apply (ewm_std_never_negative s4 (of_Z 3) 1). vm_compute. reflexivity.
Defined.

Lemma bollinger_bands_enclose_mean_witness :
  Forall (fun x => fvalid x = true) s4 /\
  exists lo up,
    fst (bollinger_bands s4 1 4) !! 0%nat = Some lo /\
    snd (bollinger_bands s4 1 4) !! 0%nat = Some up /\
    exists mu, ewm_mean s4 (of_nat 1) !! (1 + 0)%nat = Some mu /\
      (lo = S754_nan \/ fleb lo mu = true) /\
      (up = S754_nan \/ fleb mu up = true).
Proof.
  assert (Hall : Forall (fun x : float64 => fvalid x = true) s4)
    by (repeat constructor).
  split; [exact Hall|]. eexists _, _.
  split; [vm_compute; reflexivity|]. split; [vm_compute; reflexivity|].
  apply (bollinger_bands_enclose_mean s4 1 4 0 _ _ Hall); vm_compute; reflexivity.
Defined.

Lemma bollinger_bands_length_witness :
  length (fst (bollinger_bands s4 1 4)) = min 4 (length s4) - 1 /\
  length (snd (bollinger_bands s4 1 4)) = min 4 (length s4) - 1.
Proof. exact (bollinger_bands_length s4 1 4). Defined.

Lemma rolling_apply_windows_witness :
  1 <= 2 /\ 2 < length s4 /\
  length (rolling_apply np_sum 2 s4) = length s4 /\
  (2 + 1 < 2 -> rolling_apply np_sum 2 s4 !! 2%nat = Some nan) /\
  (2 <= 2 + 1 ->
   let win := slice s4 (2 + 1 - 2) (2 + 1) in
   length win = 2 /\
   (Forall (fun x => np_isfinite x = true) win ->
    rolling_apply np_sum 2 s4 !! 2%nat = Some (np_sum win)) /\
   (~ Forall (fun x => np_isfinite x = true) win ->
    rolling_apply np_sum 2 s4 !! 2%nat = Some nan)).
Proof.
  split; [lia|]. split; [simpl; lia|].
  apply (rolling_apply_windows np_sum 2 s4 2); simpl; lia.
Defined.

Lemma rolling_apply_local_witness :
  1 <= 2 /\ length s4 = length (of_Z 100 :: tail s4) /\
  (forall j, 3 + 1 - 2 <= j <= 3 -> s4 !! j = (of_Z 100 :: tail s4) !! j) /\
  rolling_apply np_sum 2 s4 !! 3%nat = rolling_apply np_sum 2 (of_Z 100 :: tail s4) !! 3%nat.
Proof.
  assert (Hsame : forall j, 3 + 1 - 2 <= j <= 3 -> s4 !! j = (of_Z 100 :: tail s4) !! j).
  { intros [|[|[|[|j]]]] Hj; simpl in Hj; try lia; reflexivity. }
  split; [lia|]. split; [reflexivity|]. split; [exact Hsame|].
  apply (rolling_apply_local np_sum 2 s4 (of_Z 100 :: tail s4) 3);
    [lia | reflexivity | exact Hsame].
Defined.
End MoreExamples64.
